(** * combine-reducers-immutable: a shallow embedding and its properties

    The development embeds [src/combine-reducers-immutable.js]: the
    [combineReducers] construction, the probes of [assertReducerSanity],
    the diagnostic helpers and the [combination] closure that runs one
    pass over the registered slice reducers inside
    [Immutable.Map.withMutations].

    JavaScript effects are explicit: a [world] holds the store of
    Immutable.Map objects (so that reference identity and in-place updates
    of the transient working copy are visible), the unexpected-key caches
    of the combinators built so far, the number of [Math.random] draws and
    a chronological trace of console output and reducer calls.
    Computations live in a state-and-exception monad [M]. *)

From Stdlib Require Import ZArith.
From stdpp Require Import gmap strings list pretty.

Open Scope string_scope.
Open Scope Z_scope.
Open Scope list_scope.

(** ** JavaScript values *)

Module JS.

(** Locations of Immutable.Map objects in the store. *)
Abbreviation loc := nat.

(** Numbers.  The numbers of the model are the integers of magnitude at
    most 2^53.  Each of them is a double of its own, [toString] prints it
    in plain decimal digits, and [+ 1] is exact on it except at 2^53,
    where the sum is rounded back to 2^53.  Fractions, NaN, the
    infinities and larger magnitudes have no representation: a numeral
    outside the range is not accepted. *)
Definition LIMIT : Z := 9007199254740992.

(** [- 2^53 <= n <= 2^53], each comparison with the bound on the left. *)
Definition exact (n : Z) : bool := (- LIMIT <=? n) && (LIMIT >=? n).

Record number := Number {
  integer : Z;
  integer_exact : Is_true (exact integer)
}.

Definition checked (b : bool) : option (Is_true b) :=
  match b as b' return option (Is_true b') with
  | true => Some I
  | false => None
  end.

Definition number_of_Z (z : Z) : option number :=
  match checked (exact z) with
  | Some H => Some (Number z H)
  | None => None
  end.

Declare Scope number_scope.
Delimit Scope number_scope with number.
Bind Scope number_scope with number.
Number Notation number number_of_Z integer : number_scope.

#[global] Instance number_eq_dec : EqDecision number.
Proof.
  intros [x Hx] [y Hy]. destruct (decide (x = y)) as [->|Hne].
  - left. f_equal. apply proof_irrel.
  - right. intros [= ?]. done.
Defined.

(** [n + 1] *)
Definition add_one (n : number) : number :=
  match checked (exact (integer n + 1)) with
  | Some H => Number (integer n + 1) H
  | None => n
  end.

(** Primitive values. *)
Inductive prim :=
| PUndefined
| PNull
| PBool (b : bool)
| PNum (n : number)
| PStr (s : string).

(** A value is a primitive, a reference to an Immutable.Map in the store,
    or a reference to any other object.  Of such an object the
    combinator can see two things: the tag that
    [Object.prototype.toString] shows for it, which is the name of its
    built-in class or the string under its [Symbol.toStringTag], hence
    any string; and its [withMutations] method, which plain objects,
    arrays, dates and functions do not have, and which the environment
    holds for the objects that have one.  Strings are sequences of code
    units below 256. *)
Inductive value :=
| VPrim (p : prim)
| VMap (l : loc)
| VObject (id : nat) (tag : string).

Coercion VPrim : prim >-> value.

Abbreviation undefined := (VPrim PUndefined).

#[global] Instance prim_eq_dec : EqDecision prim.
Proof. solve_decision. Defined.
#[global] Instance value_eq_dec : EqDecision value.
Proof. solve_decision. Defined.

(** [a === b]: primitives are compared by value, objects by reference
    (NaN, the one value that differs from itself, is not represented). *)
Definition strict_eq (a b : value) : bool := bool_decide (a = b).

(** [typeof v === 'undefined'] *)
Definition is_undefined (v : value) : bool :=
  match v with
  | VPrim PUndefined => true
  | _ => false
  end.

(** ToBoolean on primitives. *)
Definition truthy (p : prim) : bool :=
  match p with
  | PUndefined | PNull => false
  | PBool b => b
  | PNum n => negb (integer n =? 0)
  | PStr s => negb (bool_decide (s = EmptyString))
  end.

(** ToBoolean on values: every object is truthy. *)
Definition ToBoolean (v : value) : bool :=
  match v with
  | VPrim p => truthy p
  | _ => true
  end.

(** [p.toString()] for a primitive that has the method; [null] and
    [undefined] have none, and are never asked (they are falsy). *)
Definition prim_toString (p : prim) : string :=
  match p with
  | PUndefined => "undefined"
  | PNull => "null"
  | PBool true => "true"
  | PBool false => "false"
  | PNum n => pretty (integer n)
  | PStr s => s
  end.

(** [a > n] for a number literal [n] and an operand [a] that is a number
    or [undefined] ([None]): [undefined] converts to NaN, and every
    comparison with NaN is false. *)
Definition gt_num (a : option number) (n : Z) : bool :=
  match a with
  | None => false
  | Some k => integer k >? n
  end.

(** An action object: its [type] discriminant ([undefined] when it has
    none) and the rest of the record, which the combinator passes along
    without looking at it. *)
Record action := Action { atype : prim; payload : value }.

(** The double quote character, as a string. *)
Definition dq : string := String (Ascii.ascii_of_nat 34) EmptyString.

(** [xs.join(sep)] *)
Fixpoint join (sep : string) (xs : list string) : string :=
  match xs with
  | [] => EmptyString
  | [x] => x
  | x :: rest => x +:+ sep +:+ join sep rest
  end.

(** [s.split('')]: the characters of [s], each as a string. *)
Fixpoint split_chars (s : string) : list string :=
  match s with
  | EmptyString => []
  | String c rest => String c EmptyString :: split_chars rest
  end.

(** What the engine refuses to do.  The text of a TypeError depends on
    the engine; its cause does not. *)
Inductive type_error :=
| KeysOfNullish                          (* [Object.keys] of [null] or [undefined] *)
| PropertyOfNullish (property : string)  (* a property of [null] or [undefined] *)
| NotAFunction (callee : string).        (* a call of what is not a function *)

#[global] Instance type_error_eq_dec : EqDecision type_error.
Proof. solve_decision. Defined.

(** Exceptions: an [Error] object made by the source file, with its
    message; a [TypeError] raised by the engine; or whatever else a
    slice reducer throws. *)
Inductive exn :=
| Error (message : string)
| TypeError (cause : type_error)
| Thrown (v : value).

#[global] Instance exn_eq_dec : EqDecision exn.
Proof. solve_decision. Defined.

End JS.
Export JS.

(** ** The world and the monad *)

(** What is observable from outside: a line on [console.error], a call
    of a slice reducer with the slice state and action it received, and
    a call of a slice reducer with one argument only. *)
Inductive event :=
| ConsoleError (message : string)
| Called (name : string) (slice : value) (a : action)
| CalledWithoutAction (name : string) (slice : value).

(** An Immutable.Map object.  [transient] tells a mutable working copy
    (one that has an owner id) from a persistent map; [altered] is the
    [__altered] flag that [wasAltered] reads. *)
Record map_object := MapObject {
  entries : gmap string value;
  transient : bool;
  altered : bool
}.

Record world := World {
  maps : list map_object;        (* store of Map objects, by location *)
  caches : list (gset string);   (* the [unexpectedKeyCache] objects *)
  draws : nat;                   (* calls of [Math.random] so far *)
  trace : list event             (* oldest event first *)
}.

(** How a call ends. *)
Inductive outcome (A : Type) :=
| Return (a : A)
| Throw (e : exn).
Arguments Return {A} a.
Arguments Throw {A} e.

(** A slice reducer.  Reducers are pure and total, as the specification
    has them: called with a slice state and an action they neither throw
    nor touch the world, and a result of [undefined] is the "no value"
    result.  The source file can also call a reducer with one argument:
    when a slice is named [hasOwnProperty], the expression
    [reducers.hasOwnProperty(key)] calls its reducer with the key as the
    state and no action.  A reducer that reads [action.type] throws
    then, so this call has an outcome of its own. *)
Record reducer := Reducer {
  run :> value -> action -> value;
  run_without_action : value -> outcome value
}.

(** What [o.withMutations(callback)] does on an object [o] that is no
    Map but has such a method: one of the other collections of
    Immutable.js (a List, a Stack, a Set, ...).  What [get] and [set]
    mean on it is the matter of the library.  Of the call, the
    development keeps what the combinator can observe: the reducer calls
    that the callback makes, each with the name and the slice state that
    it passes, and how the call ends.  Both may depend on the registered
    names, the reducers, the action, and on everything that has happened
    so far. *)
Definition foreign_pass : Type :=
  list string -> list (string * reducer) -> action -> world
  -> list (string * value) * outcome value.

(** The environment of the module: [process.env] (or no [process] at
    all), whether a [console] with an [error] function exists, the
    string that the n-th evaluation of
    [Math.random().toString(36).substring(7)] produces, and, for the
    objects that are no Maps, their [withMutations] method, if they have
    one. *)
Record environment := Environment {
  process_env : option (option string);
  has_console : bool;
  random_suffix : nat -> string;
  withMutations_of : nat -> option foreign_pass
}.

Definition M (A : Type) : Type := world -> outcome A * world.

Definition ret {A} (a : A) : M A := fun w => (Return a, w).

Definition throw {A} (e : exn) : M A := fun w => (Throw e, w).

(** A result that does not depend on the world. *)
Definition lift {A} (r : outcome A) : M A := fun w => (r, w).

Definition bind {A B} (m : M A) (k : A -> M B) : M B :=
  fun w =>
    match m w with
    | (Return a, w') => k a w'
    | (Throw e, w') => (Throw e, w')
    end.

(** [try { m } catch (e) { h e }] *)
Definition try_catch {A} (m : M A) (h : exn -> M A) : M A :=
  fun w =>
    match m w with
    | (Return a, w') => (Return a, w')
    | (Throw e, w') => h e w'
    end.

Declare Scope js_scope.
Delimit Scope js_scope with js.
Notation "x <- m ;; k" := (bind m (fun x => k))
  (at level 100, m at next level, right associativity) : js_scope.
Notation "m ;;; k" := (bind m (fun _ => k))
  (at level 100, right associativity) : js_scope.
Open Scope js_scope.

Definition emit (e : event) : M unit :=
  fun w => (Return tt, World (maps w) (caches w) (draws w) (trace w ++ [e])).

(** [xs.forEach(f)] *)
Fixpoint forEach {A} (xs : list A) (f : A -> M unit) : M unit :=
  match xs with
  | [] => ret tt
  | x :: rest => f x ;;; forEach rest f
  end.

(** ** The part of Immutable.js that the combinator consumes

    The library is a collaborator outside the repository; the definitions
    below follow its documented behaviour.  A persistent map is never
    changed in place: [withMutations] works on a transient copy of it,
    and the library returns the receiver itself whenever an update
    changes nothing (its no-op optimisation).  A map that is mutable
    already (one that [asMutable] gave) is worked on in place. *)

Module Immutable.

(** All empty persistent maps are one shared object. *)
Definition EMPTY_MAP : loc := 0%nat.

Definition empty_object : map_object := MapObject ∅ false false.

(** [Immutable.Map()] *)
Definition Map : M value := ret (VMap EMPTY_MAP).

(** [Immutable.Map.isMap(v)] *)
Definition isMap (v : value) : bool :=
  match v with
  | VMap _ => true
  | _ => false
  end.

Definition object_at (w : world) (l : loc) : map_object :=
  default empty_object (maps w !! l).

Definition read (l : loc) : M map_object :=
  fun w => (Return (object_at w l), w).

Definition store (l : loc) (o : map_object) : M unit :=
  fun w => (Return tt, World (<[l:=o]> (maps w)) (caches w) (draws w) (trace w)).

Definition alloc (o : map_object) : M loc :=
  fun w => (Return (length (maps w)),
            World (maps w ++ [o]) (caches w) (draws w) (trace w)).

(** [m.get(k)]: the value stored under [k], or [undefined]. *)
Definition get (l : loc) (k : string) : M value :=
  o <- read l ;;
  ret (default undefined (entries o !! k)).

(** [m.set(k, v)].  Storing the value that is already there ([===])
    changes nothing and returns the receiver.  Otherwise a transient map
    is updated in place and flagged as altered, and a persistent map
    yields a new persistent map. *)
Definition set (l : loc) (k : string) (v : value) : M loc :=
  o <- read l ;;
  let unchanged :=
    match entries o !! k with
    | Some old => strict_eq old v
    | None => false
    end in
  if unchanged then ret l
  else if transient o then
    store l (MapObject (<[k:=v]> (entries o)) true true) ;;; ret l
  else alloc (MapObject (<[k:=v]> (entries o)) false false).

(** [m.asMutable()]: the receiver if it is transient already, else a
    transient copy. *)
Definition asMutable (l : loc) : M loc :=
  o <- read l ;;
  if transient o then ret l
  else alloc (MapObject (entries o) true false).

(** [m.wasAltered()] *)
Definition wasAltered (l : loc) : M bool :=
  o <- read l ;;
  ret (altered o).

(** [mutable.__ensureOwner(receiver.__ownerID)] as [withMutations] calls
    it.  The working copy has the owner of the receiver exactly when it
    is the receiver (a transient one); then it is returned as it is.
    Otherwise the receiver is persistent: the copy loses its owner, its
    flag is reset, and it becomes the new persistent map. *)
Definition ensureOwner (mutable receiver : loc) : M loc :=
  if bool_decide (mutable = receiver) then ret mutable
  else
    o <- read mutable ;;
    store mutable (MapObject (entries o) false false) ;;;
    ret mutable.

(** [m.withMutations(fn)] *)
Definition withMutations (l : loc) (fn : loc -> M unit) : M value :=
  mutable <- asMutable l ;;
  fn mutable ;;;
  changed <- wasAltered mutable ;;
  if changed then
    r <- ensureOwner mutable l ;; ret (VMap r)
  else ret (VMap l).

(** The keys of a map, all of them strings here, in an iteration order.
    The order in which the library yields the keys is its own matter;
    no property of this development depends on it. *)
Definition keys_of (o : map_object) : list string :=
  map fst (map_to_list (entries o)).

(** [m.keySeq().filter(p)]: a lazy sequence.  Nothing is computed when it
    is built; every traversal reads the keys and runs the predicate
    again. *)
Record Seq := MkSeq {
  source : loc;
  predicate : string -> M bool
}.

Definition keySeq_filter (l : loc) (p : string -> M bool) : Seq := MkSeq l p.

(** [seq.forEach(f)] *)
Definition Seq_forEach (s : Seq) (f : string -> M unit) : M unit :=
  o <- read (source s) ;;
  forEach (keys_of o)
    (fun k => keep <- predicate s k ;; if keep then f k else ret tt).

(** The surviving keys of one traversal. *)
Fixpoint Seq_collect (p : string -> M bool) (ks : list string) : M (list string) :=
  match ks with
  | [] => ret []
  | k :: rest =>
      keep <- p k ;;
      found <- Seq_collect p rest ;;
      ret (if keep then k :: found else found)
  end.

(** [seq.join(sep)] *)
Definition Seq_join (sep : string) (s : Seq) : M string :=
  o <- read (source s) ;;
  found <- Seq_collect (predicate s) (keys_of o) ;;
  ret (join sep found).

(** [seq.length].  A Seq is not an array: the number of its elements is
    [seq.size] or [seq.count()], and a lazily filtered Seq has no known
    size.  Reading [length] gives [undefined].  (Version 3 of the library
    answers with [this.size], which is [undefined] here as well, after a
    deprecation notice on [console.warn], a channel that the trace does
    not follow.) *)
Definition Seq_length (s : Seq) : option number := None.

End Immutable.

(** ** Plain JavaScript objects used as records of reducers *)

(** A property value of the object handed to [combineReducers]: a
    function, or anything else. *)
Inductive candidate :=
| Fn (f : reducer)
| NotFn (v : value).

(** [Object.keys(o)], for an object given by its own enumerable
    properties in enumeration order. *)
Definition Object_keys {A} (o : list (string * A)) : list string := map fst o.

(** [o[k]], when [k] is an own property. *)
Fixpoint own_property {A} (o : list (string * A)) (k : string) : option A :=
  match o with
  | [] => None
  | (k', x) :: rest => if bool_decide (k' = k) then Some x else own_property rest k
  end.

(** [o[k] = x] where [k] names a property of [o] itself, or none at
    all. *)
Fixpoint set_property {A} (o : list (string * A)) (k : string) (x : A)
  : list (string * A) :=
  match o with
  | [] => [(k, x)]
  | (k', y) :: rest =>
      if bool_decide (k' = k) then (k', x) :: rest
      else (k', y) :: set_property rest k x
  end.

(** [o[k] = x] on an object that [{}] made, for an [x] that is an
    object.  The name [__proto__] is an accessor that every such object
    inherits from [Object.prototype]: the assignment calls its setter,
    which makes [x] the prototype of [o] and gives [o] no property of
    its own. *)
Definition assign {A} (o : list (string * A)) (k : string) (x : A)
  : list (string * A) :=
  if bool_decide (k = "__proto__") then o else set_property o k x.

(** A call of a slice reducer with one argument, recorded in the trace. *)
Definition call_without_action (name : string) (f : reducer) (slice : value) : M value :=
  emit (CalledWithoutAction name slice) ;;; lift (run_without_action f slice).

(** [reducers.hasOwnProperty(k)] on the object [finalReducers].  The
    method is looked up on the object first: when a slice is named
    [hasOwnProperty], its reducer is what is called, with [k] alone;
    otherwise the method inherited from [Object.prototype] answers. *)
Definition hasOwnProperty (reducers : list (string * reducer)) (k : string) : M value :=
  match own_property reducers "hasOwnProperty" with
  | Some f => call_without_action "hasOwnProperty" f (PStr k)
  | None => ret (VPrim (PBool (bool_decide (k ∈ Object_keys reducers))))
  end.

(** The properties that every object inherits from [Object.prototype];
    all of them hold truthy values. *)
Definition object_prototype_keys : list string :=
  [ "constructor"; "hasOwnProperty"; "isPrototypeOf"; "propertyIsEnumerable";
    "toLocaleString"; "toString"; "valueOf"; "__defineGetter__";
    "__defineSetter__"; "__lookupGetter__"; "__lookupSetter__"; "__proto__" ].

(** [new_object]: evaluates [{}] for a cache. *)
Definition new_object : M nat :=
  fun w => (Return (length (caches w)),
            World (maps w) (caches w ++ [∅]) (draws w) (trace w)).

Definition cache_at (w : world) (c : nat) : gset string :=
  default ∅ (caches w !! c).

(** [cache[key]] as a condition; reading a property of [undefined] is a
    TypeError. *)
Definition cache_has (cache : option nat) (key : string) : M bool :=
  match cache with
  | None => throw (TypeError (PropertyOfNullish key))
  | Some c => fun w =>
      (Return (bool_decide (key ∈ cache_at w c)
               || bool_decide (key ∈ object_prototype_keys)), w)
  end.

(** [cache[key] = true] *)
Definition cache_set (cache : option nat) (key : string) : M unit :=
  match cache with
  | None => throw (TypeError (PropertyOfNullish key))
  | Some c => fun w =>
      (Return tt,
       World (maps w) (<[c := {[key]} ∪ cache_at w c]> (caches w)) (draws w) (trace w))
  end.

(** [({}).toString.call(v)]: the tag of [v] between "[object " and "]".
    The source asks it of values that are not maps only. *)
Definition class_of (v : value) : string :=
  match v with
  | VPrim PUndefined => "Undefined"
  | VPrim PNull => "Null"
  | VPrim (PBool _) => "Boolean"
  | VPrim (PNum _) => "Number"
  | VPrim (PStr _) => "String"
  | VMap _ => "Object"
  | VObject _ tag => tag
  end.

Definition Object_toString (v : value) : string :=
  "[object " +:+ class_of v +:+ "]".

(** The regular expression [/\s([a-z|A-Z]+)/].  The white space below
    256: the tab, the line feed, the vertical tab, the form feed, the
    carriage return, the space and the no-break space. *)
Definition is_space (c : Ascii.ascii) : bool :=
  let n := Ascii.nat_of_ascii c in
  ((n =? 32) || ((9 <=? n) && (n <=? 13)) || (n =? 160))%nat.

Definition is_class_char (c : Ascii.ascii) : bool :=
  let n := Ascii.nat_of_ascii c in
  (((65 <=? n) && (n <=? 90)) || ((97 <=? n) && (n <=? 122)) || (n =? 124))%nat.

Fixpoint take_class (s : string) : string :=
  match s with
  | EmptyString => EmptyString
  | String c rest =>
      if is_class_char c then String c (take_class rest) else EmptyString
  end.

(** [s.match(/\s([a-z|A-Z]+)/)], reduced to its first group; [None] when
    there is no match. *)
Fixpoint match_class (s : string) : option string :=
  match s with
  | EmptyString => None
  | String c rest =>
      if is_space c then
        match take_class rest with
        | EmptyString => match_class rest
        | group => Some group
        end
      else match_class rest
  end.

(** ** The source file *)

Module ActionTypes.
Definition INIT : string := "@@redux/INIT".
End ActionTypes.

(** What is handed to [combineReducers]: [undefined], [null], or any
    other value, which [Object.keys] reads as an object with its own
    enumerable properties, in enumeration order. *)
Inductive argument :=
| AUndefined
| ANull
| AObject (properties : list (string * candidate)).

(** What [combineReducers] returns: the function [combination] together
    with the variables it closes over. *)
Record closure := Closure {
  finalReducers : list (string * reducer);
  finalReducerNames : list string;
  unexpectedKeyCache : option nat;     (* [undefined] in production *)
  sanityError : option exn             (* [undefined] when no probe failed *)
}.

(** A call of a slice reducer, recorded in the trace. *)
Definition call (name : string) (f : reducer) (slice : value) (a : action) : M value :=
  emit (Called name slice a) ;;; ret (f slice a).

Section Source.

Variable env : environment.

(** [typeof process !== 'undefined' ? process.env.NODE_ENV : 'development'];
    [None] is [undefined]. *)
Definition NODE_ENV : option string :=
  match process_env env with
  | Some v => v
  | None => Some "development"
  end.

(** [NODE_ENV !== 'production'] *)
Definition not_production : bool :=
  negb (bool_decide (NODE_ENV = Some "production")).

(** [Math.random().toString(36).substring(7)] *)
Definition Math_random_suffix : M string :=
  fun w => (Return (random_suffix env (draws w)),
            World (maps w) (caches w) (S (draws w)) (trace w)).

Definition warning (message : string) : M unit :=
  (if has_console env then emit (ConsoleError message) else ret tt) ;;;
  try_catch (throw (Error message)) (fun _ => ret tt).

Definition getUndefinedStateErrorMessage (key : string) (a : action) : string :=
  let actionType := atype a in
  let actionName :=
    if truthy actionType then dq +:+ prim_toString actionType +:+ dq
    else "an action" in
  "Given action " +:+ actionName +:+ ", reducer " +:+ dq +:+ key +:+ dq
  +:+ " returned undefined. "
  +:+ "To ignore an action, you must explicitly return the previous state.".

(** The texts that [getUnexpectedStateShapeWarningMessage] builds. *)
Definition argument_name (a : action) : string :=
  if strict_eq (atype a) (PStr ActionTypes.INIT)
  then "preloadedState argument passed to createStore"
  else "previous state received by the reducer".

Definition no_reducer_message : string :=
  "Store does not have a valid reducer. Make sure the argument passed "
  +:+ "to combineReducers is an object whose values are reducers.".

Definition unexpected_type_message (argumentName observed : string)
    (reducerKeys : list string) : string :=
  "The " +:+ argumentName +:+ " has unexpected type of " +:+ dq
  +:+ observed
  +:+ dq +:+ ". Expected argument to be an Immutable Map with the following "
  +:+ "keys: " +:+ dq +:+ join (dq +:+ ", " +:+ dq) reducerKeys +:+ dq.

Definition unexpected_keys_message (several : bool) (joined argumentName : string)
    (reducerKeys : list string) : string :=
  "Unexpected " +:+ (if several then "keys" else "key")
  +:+ " " +:+ dq +:+ joined +:+ dq +:+ " found in " +:+ argumentName +:+ ". "
  +:+ "Expected to find one of the known reducer keys instead: "
  +:+ dq +:+ join (dq +:+ ", " +:+ dq) reducerKeys +:+ dq
  +:+ ". Unexpected keys will be ignored.".

Definition getUnexpectedStateShapeWarningMessage
    (inputState : value) (reducers : list (string * reducer)) (a : action)
    (unexpectedKeyCache : option nat) : M (option string) :=
  let reducerKeys := Object_keys reducers in
  let argumentName := argument_name a in
  if (length reducerKeys =? 0)%nat then ret (Some no_reducer_message)
  else if negb (Immutable.isMap inputState) then
    match match_class (Object_toString inputState) with
    | None => throw (TypeError (PropertyOfNullish "1"))   (* [null[1]] *)
    | Some observed =>
        ret (Some (unexpected_type_message argumentName observed reducerKeys))
    end
  else
    match inputState with
    | VMap l =>
        let unexpectedKeys :=
          Immutable.keySeq_filter l (fun key =>
            own <- hasOwnProperty reducers key ;;
            if ToBoolean own then ret false
            else
              cached <- cache_has unexpectedKeyCache key ;;
              ret (negb cached)) in
        Immutable.Seq_forEach unexpectedKeys (fun key =>
          cache_set unexpectedKeyCache key) ;;;
        if gt_num (Immutable.Seq_length unexpectedKeys) 0 then
          joined <- Immutable.Seq_join (dq +:+ ", " +:+ dq) unexpectedKeys ;;
          ret (Some (unexpected_keys_message
                       (gt_num (Immutable.Seq_length unexpectedKeys) 1)
                       joined argumentName reducerKeys))
        else ret None
    | _ => ret None
    end.

Definition init_error_message (reducerName : string) : string :=
  "Reducer " +:+ dq +:+ reducerName +:+ dq +:+ " returned undefined during initialization. "
  +:+ "If the state passed to the reducer is undefined, you must "
  +:+ "explicitly return the initial state. The initial state may "
  +:+ "not be undefined.".

Definition probe_error_message (reducerName : string) : string :=
  "Reducer " +:+ dq +:+ reducerName +:+ dq
  +:+ " returned undefined when probed with a random type. "
  +:+ "Don't try to handle " +:+ ActionTypes.INIT +:+ " or other actions in "
  +:+ dq +:+ "redux/*" +:+ dq +:+ " "
  +:+ "namespace. They are considered private. Instead, you must return the "
  +:+ "current state for any unknown actions, unless it is undefined, "
  +:+ "in which case you must return the initial state, regardless of the "
  +:+ "action type. The initial state may not be undefined.".

(** ['@@redux/PROBE_UNKNOWN_ACTION_' + suffix.split('').join('.')] *)
Definition probe_type (suffix : string) : string :=
  "@@redux/PROBE_UNKNOWN_ACTION_" +:+ join "." (split_chars suffix).

(** The callback of [assertReducerSanity]: the two probes of one reducer. *)
Definition probe_reducer (reducers : list (string * reducer)) (reducerName : string)
  : M unit :=
  match own_property reducers reducerName with
  | None => throw (TypeError (NotAFunction reducerName))
  | Some reducer =>
      initialState <- call reducerName reducer undefined
                        (Action (PStr ActionTypes.INIT) undefined) ;;
      if is_undefined initialState then
        throw (Error (init_error_message reducerName))
      else
        suffix <- Math_random_suffix ;;
        let type := probe_type suffix in
        probed <- call reducerName reducer undefined (Action (PStr type) undefined) ;;
        if is_undefined probed then
          throw (Error (probe_error_message reducerName))
        else ret tt
  end.

Definition assertReducerSanity (reducers : list (string * reducer)) : M unit :=
  forEach (Object_keys reducers) (probe_reducer reducers).

(** The first loop of [combineReducers]: it reports the keys without a
    reducer and copies the functions into [finalReducers]. *)
Fixpoint collect (reducers : list (string * candidate)) (reducerNames : list string)
    (finalReducers : list (string * reducer)) : M (list (string * reducer)) :=
  match reducerNames with
  | [] => ret finalReducers
  | reducerName :: rest =>
      let property := default (NotFn undefined) (own_property reducers reducerName) in
      (match property with
       | NotFn (VPrim PUndefined) =>
           if not_production then
             warning ("No reducer provided for key " +:+ dq +:+ reducerName +:+ dq)
           else ret tt
       | _ => ret tt
       end) ;;;
      match property with
      | Fn f => collect reducers rest (assign finalReducers reducerName f)
      | NotFn _ => collect reducers rest finalReducers
      end
  end.

(** The callback that [combination] runs for every registered name on the
    transient copy. *)
Definition reduce_slice (c : closure) (a : action) (transientState : loc)
    (reducerName : string) : M unit :=
  currentStateForReducer <- Immutable.get transientState reducerName ;;
  match own_property (finalReducers c) reducerName with
  | None => throw (TypeError (NotAFunction reducerName))
  | Some reducer =>
      nextStateForReducer <- call reducerName reducer currentStateForReducer a ;;
      if is_undefined nextStateForReducer then
        throw (Error (getUndefinedStateErrorMessage reducerName a))
      else
        Immutable.set transientState reducerName nextStateForReducer ;;;
        ret tt
  end.

(** The TypeError of [state.withMutations(...)] on a state that has no
    such method: [null] has no properties at all, and on any other value
    the property is [undefined], which is not a function. *)
Definition no_withMutations (state : value) : type_error :=
  match state with
  | VPrim PNull | VPrim PUndefined => PropertyOfNullish "withMutations"
  | _ => NotAFunction "withMutations"
  end.

(** [state.withMutations], for a state that is no Map. *)
Definition other_withMutations (state : value) : option foreign_pass :=
  match state with
  | VObject id _ => withMutations_of env id
  | _ => None
  end.

(** The statement [return state.withMutations(...)] of [combination]. *)
Definition slice_pass (c : closure) (state : value) (a : action) : M value :=
  match state with
  | VMap l =>
      Immutable.withMutations l (fun transientState =>
        forEach (finalReducerNames c) (reduce_slice c a transientState))
  | _ =>
      match other_withMutations state with
      | Some pass => fun w =>
          let r := pass (finalReducerNames c) (finalReducers c) a w in
          (r.2, World (maps w) (caches w) (draws w)
                      (trace w ++ map (fun p => Called p.1 p.2 a) r.1))
      | None => throw (TypeError (no_withMutations state))
      end
  end.

Definition combination (c : closure) (state : value) (a : action) : M value :=
  state <- (if is_undefined state then Immutable.Map else ret state) ;;
  match sanityError c with
  | Some e => throw e
  | None =>
      (if not_production then
         warningMessage <- getUnexpectedStateShapeWarningMessage
                             state (finalReducers c) a (unexpectedKeyCache c) ;;
         match warningMessage with
         | Some message => if truthy (PStr message) then warning message else ret tt
         | None => ret tt
         end
       else ret tt) ;;;
      slice_pass c state a
  end.

Definition combineReducers (reducers : argument) : M closure :=
  match reducers with
  | AObject reducers =>
      let reducerNames := Object_keys reducers in
      finalReducers <- collect reducers reducerNames [] ;;
      let finalReducerNames := Object_keys finalReducers in
      unexpectedKeyCache <-
        (if not_production then cache <- new_object ;; ret (Some cache) else ret None) ;;
      sanityError <-
        try_catch (assertReducerSanity finalReducers ;;; ret None)
                  (fun e => ret (Some e)) ;;
      ret (Closure finalReducers finalReducerNames unexpectedKeyCache sanityError)
  | _ => throw (TypeError KeysOfNullish)    (* [Object.keys(reducers)] *)
  end.

End Source.

(** * Functions used to state and prove the properties *)

(** ** The slice pass as a function of the entries *)

(** What one run of the loop over the registered names does to the entries
    [m] of the transient copy and to its [altered] flag [b]: the reducer
    calls it makes, and either the exception that ends it or the final
    entries and flag. *)
Fixpoint pass_result (finals : list (string * reducer)) (a : action)
    (names : list string) (m : gmap string value) (b : bool)
  : list event * (exn + gmap string value * bool) :=
  match names with
  | [] => ([], inr (m, b))
  | k :: rest =>
      match own_property finals k with
      | None => ([], inl (TypeError (NotAFunction k)))
      | Some f =>
          let cur := default undefined (m !! k) in
          let next := f cur a in
          if is_undefined next then
            ([Called k cur a], inl (Error (getUndefinedStateErrorMessage k a)))
          else
            let r := pass_result finals a rest (<[k:=next]> m)
                       (b || negb (bool_decide (m !! k = Some next))) in
            (Called k cur a :: r.1, r.2)
      end
  end.

Definition outcome_of {A} (r : exn + A) : outcome unit :=
  match r with
  | inl e => Throw e
  | inr _ => Return tt
  end.

(** The result of [withMutations] for a pass that ended with [r], on the
    receiver [l], when the transient copy was allocated at [t]. *)
Definition pass_outcome (r : exn + gmap string value * bool) (l t : loc) : outcome value :=
  match r with
  | inl e => Throw e
  | inr (_, true) => Return (VMap t)
  | inr (_, false) => Return (VMap l)
  end.

(** The flag ends up set exactly when it was set before or some write
    stored a value that was not there already. *)
Definition writes_nothing_new (finals : list (string * reducer)) (a : action)
    (m : gmap string value) (k : string) : Prop :=
  forall f, own_property finals k = Some f ->
            m !! k = Some (f (default undefined (m !! k)) a).

(** The functions among the properties of [reducers], in enumeration
    order: what the first loop of [combineReducers] leaves in
    [finalReducers]. *)
Fixpoint functions_of (reducers : list (string * candidate)) (reducerNames : list string)
    (finalReducers : list (string * reducer)) : list (string * reducer) :=
  match reducerNames with
  | [] => finalReducers
  | reducerName :: rest =>
      match own_property reducers reducerName with
      | Some (Fn f) => functions_of reducers rest (assign finalReducers reducerName f)
      | _ => functions_of reducers rest finalReducers
      end
  end.

Definition console_line (env : environment) (message : string) : list event :=
  if has_console env then [ConsoleError message] else [].

(** The two probe actions; the random one is built from the [n]-th
    draw of [Math.random]. *)
Definition init_action : action := Action (PStr ActionTypes.INIT) undefined.

Definition probe_action (env : environment) (n : nat) : action :=
  Action (PStr (probe_type (random_suffix env n))) undefined.

(** The verdict of [assertReducerSanity]: the error of the first reducer
    that fails a probe, when the next draw of [Math.random] is the
    [n]-th. *)
Fixpoint sanity_verdict (env : environment) (rs : list (string * reducer)) (n : nat)
  : option exn :=
  match rs with
  | [] => None
  | (k, f) :: rest =>
      if is_undefined (f undefined init_action) then
        Some (Error (init_error_message k))
      else if is_undefined (f undefined (probe_action env n)) then
        Some (Error (probe_error_message k))
      else sanity_verdict env rest (S n)
  end.

Definition verdict_outcome (v : option exn) : outcome unit :=
  match v with
  | Some e => Throw e
  | None => Return tt
  end.

(** What [combineReducers] returns for [reducers] when [n] draws of
    [Math.random] were made before and [k] caches exist. *)
Definition built (env : environment) (reducers : list (string * candidate))
    (n k : nat) : closure :=
  let finals := functions_of reducers (Object_keys reducers) [] in
  Closure finals (Object_keys finals)
          (if not_production env then Some k else None)
          (sanity_verdict env finals n).

(** The diagnostics of an invocation on a map. *)
Definition map_diagnostics (env : environment) (c : closure) : list event :=
  if not_production env && (length (finalReducers c) =? 0)%nat
  then console_line env no_reducer_message
  else [].

(** ** The scenario of the specification *)

Module Scenario.

(** [s + 1].  The slice of the scenario is a number; the coercions of the
    other primitives are written out, and an operand whose sum the model
    cannot represent (NaN for [undefined], the text of an object) is left
    as it is. *)
Definition plus_one (s : value) : value :=
  match s with
  | VPrim (PNum n) => VPrim (PNum (add_one n))
  | VPrim (PStr x) => VPrim (PStr (x +:+ "1"))
  | VPrim PNull => VPrim (PNum 1)
  | VPrim (PBool b) => VPrim (PNum (if b then 2 else 1))
  | _ => s
  end.

(** What a reducer that reads [a.type] does when it is called without an
    action. *)
Definition reads_type {A} : outcome A := Throw (TypeError (PropertyOfNullish "type")).

(** [(s = 0, a) => a.type === 'INC' ? s + 1 : s] *)
Definition counter : reducer :=
  Reducer
    (fun s a =>
       let s := if is_undefined s then VPrim (PNum 0) else s in
       if strict_eq (atype a) (PStr "INC") then plus_one s else s)
    (fun s => reads_type).

(** [(s = '', a) => s] *)
Definition name : reducer :=
  Reducer
    (fun s a => if is_undefined s then VPrim (PStr EmptyString) else s)
    (fun s => Return (if is_undefined s then VPrim (PStr EmptyString) else s)).

Definition reducers : list (string * candidate) :=
  [("counter", Fn counter); ("name", Fn name)].

(** [{type: 'INC'}] *)
Definition INC : action := Action (PStr "INC") undefined.

(** A development environment and the world before anything ran: the
    store holds the shared empty map only. *)
Definition development : environment :=
  Environment None true (fun _ => "k3x9q") (fun _ => None).

Definition initial_world : world := World [Immutable.empty_object] [] 0 [].

End Scenario.


(** ** Concrete runs *)

Module Runs.

Import Scenario.

(** A store that holds, next to the shared empty map, one persistent map
    with the entries [m]. *)
Definition world_with (m : gmap string value) : world :=
  World [Immutable.empty_object; MapObject m false false] [] 0 [].

Definition state : value := VMap 1%nat.

(** The same store with a mutable map in the place of the persistent
    one: what [Immutable.Map(m).asMutable()] gives. *)
Definition world_with_mutable (m : gmap string value) : world :=
  World [Immutable.empty_object; MapObject m true false] [] 0 [].

(** [(s = 0, a) => a.type === t ? undefined : s] *)
Definition refuses (t : prim) : reducer :=
  Reducer
    (fun s a =>
       let s := if is_undefined s then VPrim (PNum 0) else s in
       if strict_eq (atype a) t then undefined else s)
    (fun s => Scenario.reads_type).

(** [(s, a) => a.type === 'NOOP' ? s : (s === undefined ? 0 : s)] *)
Definition echo_on_noop : reducer :=
  Reducer
    (fun s a =>
       if strict_eq (atype a) (PStr "NOOP") then s
       else if is_undefined s then VPrim (PNum 0) else s)
    (fun s => Scenario.reads_type).

(** [(s = 0, a) => s] *)
Definition keep : reducer :=
  Reducer
    (fun s a => if is_undefined s then VPrim (PNum 0) else s)
    (fun s => Return (if is_undefined s then VPrim (PNum 0) else s)).

Definition OTHER : action := Action (PStr "OTHER") undefined.
Definition NOOP : action := Action (PStr "NOOP") undefined.
Definition BOOM : action := Action (PStr "BOOM") undefined.
Definition ZERO : action := Action (PNum 0) undefined.

(** The combined reducer that [combineReducers] returns in the
    development environment on a fresh world, and the world it leaves. *)
Definition construct (w : world) (reducers : list (string * candidate)) : closure * world :=
  match combineReducers development (AObject reducers) w with
  | (Return c, w1) => (c, w1)
  | (Throw _, w1) => (Closure [] [] None None, w1)
  end.

Definition console_lines (tr : list event) : list string :=
  omap (fun e => match e with ConsoleError m => Some m | _ => None end) tr.

(** [{bad: () => undefined}] *)
Definition bad : reducer := Reducer (fun _ _ => undefined) (fun _ => Return undefined).

End Runs.


(** ** Functions used to state the further properties *)

(** The entry of [finalReducers] that a property of the mapping gives:
    none for a value that is no function, and none under the name
    [__proto__]. *)
Definition function_entry (p : string * candidate) : option (string * reducer) :=
  match p with
  | (k, Fn f) => if bool_decide (k = "__proto__") then None else Some (k, f)
  | (_, NotFn _) => None
  end.

Definition missing_reducer_message (reducerName : string) : string :=
  "No reducer provided for key " +:+ dq +:+ reducerName +:+ dq.

(** The console lines of the first loop of [combineReducers]: one for
    every property whose value is [undefined]. *)
Definition missing_reducer_lines (env : environment)
    (reducers : list (string * candidate)) : list string :=
  if not_production env && has_console env then
    omap (fun p => match p with
                   | (k, NotFn (VPrim PUndefined)) => Some (missing_reducer_message k)
                   | _ => None
                   end) reducers
  else [].

(** The events of the first loop, name by name. *)
Definition missing_events (env : environment) (reducers : list (string * candidate))
    (reducerNames : list string) : list event :=
  flat_map (fun k =>
    match default (NotFn undefined) (own_property reducers k) with
    | NotFn (VPrim PUndefined) =>
        if not_production env then console_line env (missing_reducer_message k) else []
    | _ => []
    end) reducerNames.

(** The reducer calls of a trace, of both kinds. *)
Definition call_events (tr : list event) : list event :=
  omap (fun e => match e with
                 | Called _ _ _ | CalledWithoutAction _ _ => Some e
                 | _ => None
                 end) tr.

(** The calls of [assertReducerSanity] on reducers that all pass: two for
    each, the random probe of the first one built from the [n]-th draw. *)
Fixpoint sanity_calls (env : environment) (rs : list (string * reducer)) (n : nat)
  : list event :=
  match rs with
  | [] => []
  | (k, f) :: rest =>
      Called k undefined init_action
      :: Called k undefined (probe_action env n)
      :: sanity_calls env rest (S n)
  end.

(** What [assertReducerSanity] does to the trace and to the number of
    draws, up to the first failed probe. *)
Fixpoint probe_run (env : environment) (rs : list (string * reducer)) (n : nat)
  : list event * nat :=
  match rs with
  | [] => ([], n)
  | (k, f) :: rest =>
      if is_undefined (f undefined init_action) then
        ([Called k undefined init_action], n)
      else if is_undefined (f undefined (probe_action env n)) then
        ([Called k undefined init_action; Called k undefined (probe_action env n)], S n)
      else
        let r := probe_run env rest (S n) in
        (Called k undefined init_action :: Called k undefined (probe_action env n) :: r.1,
         r.2)
  end.

(** A reducer passes the two probes, the random one built from draw [n]. *)
Definition passes_probes (env : environment) (f : reducer) (n : nat) : Prop :=
  is_undefined (f undefined init_action) = false
  /\ is_undefined (f undefined (probe_action env n)) = false.

(** The keys that an invocation flags as unexpected: those of the state
    that are neither registered nor names of [Object.prototype]. *)
Definition marked (finals : list (string * reducer)) (cached : gset string)
    (keys : list string) : gset string :=
  cached ∪ list_to_set
             (filter (fun k => (k ∉ Object_keys finals) /\ (k ∉ object_prototype_keys)) keys).

(** The parts of the world that the slice pass leaves alone, and the
    exceptions it can end with. *)
Definition pass_frame (c : closure) (a : action) (names : list string)
    (w : world) (res : outcome unit * world) : Prop :=
  caches res.2 = caches w
  /\ draws res.2 = draws w
  /\ Runs.console_lines (trace res.2) = Runs.console_lines (trace w)
  /\ forall e, res.1 = Throw e ->
       exists k, k ∈ names
         /\ ((e = Error (getUndefinedStateErrorMessage k a)
              /\ is_Some (own_property (finalReducers c) k))
             \/ (e = TypeError (NotAFunction k) /\ own_property (finalReducers c) k = None)).

(** The diagnostic block of [combination], its lines 177 to 182. *)
Definition diagnostics (env : environment) (c : closure) (state : value) (a : action)
  : M unit :=
  if not_production env then
    warningMessage <- getUnexpectedStateShapeWarningMessage
                        state (finalReducers c) a (unexpectedKeyCache c) ;;
    match warningMessage with
    | Some message => if truthy (PStr message) then warning env message else ret tt
    | None => ret tt
    end
  else ret tt.

(** The state that [combination] works on: the default parameter. *)
Definition state_or_default (state : value) : value :=
  if is_undefined state then VMap Immutable.EMPTY_MAP else state.

(** The keys that a state yields to the shape check. *)
Definition state_keys (w : world) (state : value) : list string :=
  match state with
  | VMap l => Immutable.keys_of (Immutable.object_at w l)
  | _ => []
  end.

(** The parts of the world that the shape check of a map with the keys
    [keys] leaves alone, and the exceptions it can end with: those of a
    reducer that is registered as [hasOwnProperty] and called with a key,
    and, where there is no cache, that of reading it. *)
Definition check_frame {A} (finals : list (string * reducer)) (cache : option nat)
    (keys : list string) (w : world) (res : outcome A * world) : Prop :=
  maps res.2 = maps w
  /\ draws res.2 = draws w
  /\ Runs.console_lines (trace res.2) = Runs.console_lines (trace w)
  /\ forall e, res.1 = Throw e ->
       exists k, k ∈ keys
         /\ ((cache = None /\ e = TypeError (PropertyOfNullish k))
             \/ exists f, own_property finals "hasOwnProperty" = Some f
                          /\ run_without_action f (PStr k) = Throw e).

(** ** More concrete inputs *)

Module More.

(** A mapping with two functions, an [undefined] value and a number. *)
Definition mixed : list (string * candidate) :=
  [("counter", Fn Scenario.counter); ("gone", NotFn undefined);
   ("name", Fn Scenario.name); ("junk", NotFn (VPrim (PNum 3)))].

(** [(s, a) => a.type === '@@redux/INIT' ? 0 : s] *)
Definition init_only : reducer :=
  Reducer
    (fun s a => if strict_eq (atype a) (PStr ActionTypes.INIT) then VPrim (PNum 0) else s)
    (fun s => Scenario.reads_type).

Definition failing_first : list (string * candidate) :=
  [("name", Fn Scenario.name); ("bad", Fn Runs.bad); ("counter", Fn Scenario.counter)].

Definition failing_probe : list (string * candidate) :=
  [("name", Fn Scenario.name); ("init", Fn init_only); ("counter", Fn Scenario.counter)].


Definition production : environment :=
  Environment (Some (Some "production")) true (fun _ => "k3x9q") (fun _ => None).

Definition with_extra : gmap string value :=
  {[ "counter" := VPrim (PNum 1); "extra" := VPrim (PNum 5) ]}.

(** The [withMutations] of a collection [self] that has no entry under
    any of the registered names and that ignores what is set under them:
    the callback of [combination] then calls every reducer on
    [undefined], throws when one of them returns [undefined], and
    otherwise the collection itself is returned. *)
Fixpoint indifferent_pass (self : value) (names : list string)
    (finals : list (string * reducer)) (a : action)
    : list (string * value) * outcome value :=
  match names with
  | [] => ([], Return self)
  | k :: rest =>
      match own_property finals k with
      | Some f =>
          if is_undefined (f undefined a)
          then ([(k, undefined)], Throw (Error (getUndefinedStateErrorMessage k a)))
          else let r := indifferent_pass self rest finals a in
               ((k, undefined) :: r.1, r.2)
      | None => ([], Throw (TypeError (NotAFunction k)))
      end
  end.

(** The development environment with one such collection, the object
    number 7. *)
Definition with_collection : environment :=
  Environment None true (fun _ => "k3x9q")
    (fun id => if (id =? 7)%nat
               then Some (fun names finals a _ =>
                            indifferent_pass (VObject 7 "Object") names finals a)
               else None).



Definition with_bogus : gmap string value :=
  {[ "a" := VPrim (PNum 0); "bogus" := VPrim (PNum 1) ]}.

(** [combineReducers] in environment [env] on the world [w]. *)
Definition construct_in (env : environment) (w : world)
    (reducers : list (string * candidate)) : closure * world :=
  match combineReducers env (AObject reducers) w with
  | (Return c, w1) => (c, w1)
  | (Throw _, w1) => (Closure [] [] None None, w1)
  end.

End More.


(** * Properties *)

(** ** The slice pass *)

Section PassLemmas.

Variable env : environment.
Variable c : closure.
Variable a : action.

Lemma reduce_slice_step w t m b k :
  maps w !! t = Some (MapObject m true b) ->
  reduce_slice c a t k w =
    match own_property (finalReducers c) k with
    | None => (Throw (TypeError (NotAFunction k)), w)
    | Some f =>
        let cur := default undefined (m !! k) in
        let next := f cur a in
        if is_undefined next then
          (Throw (Error (getUndefinedStateErrorMessage k a)),
           World (maps w) (caches w) (draws w) (trace w ++ [Called k cur a]))
        else
          (Return tt,
           World (<[t := MapObject (<[k:=next]> m) true
                           (b || negb (bool_decide (m !! k = Some next)))]> (maps w))
                 (caches w) (draws w) (trace w ++ [Called k cur a]))
    end.
Proof.
  intros Ht.
  unfold reduce_slice, Immutable.get, Immutable.read, Immutable.object_at, bind, ret.
  rewrite Ht. simpl.
  destruct (own_property (finalReducers c) k) as [f|]; [|reflexivity].
  unfold call, emit, bind, ret. simpl.
  destruct (is_undefined (f (default undefined (m !! k)) a)) eqn:Hu; [reflexivity|].
  unfold Immutable.set, Immutable.read, Immutable.object_at, bind, ret. simpl.
  rewrite Ht. simpl.
  destruct (m !! k) as [old|] eqn:Hk; simpl.
  - unfold strict_eq. destruct (decide (old = f old a)) as [Heq|Hne].
    + rewrite bool_decide_eq_true_2 by done.
      rewrite bool_decide_eq_true_2 by congruence.
      unfold ret. simpl. rewrite orb_false_r.
      rewrite insert_id by congruence.
      rewrite list_insert_id by done. reflexivity.
    + rewrite bool_decide_eq_false_2 by done.
      rewrite bool_decide_eq_false_2 by congruence.
      unfold Immutable.store, bind, ret. simpl. rewrite orb_true_r. reflexivity.
  - rewrite orb_true_r. reflexivity.
Qed.

Lemma slice_loop names : forall w t m b,
  maps w !! t = Some (MapObject m true b) ->
  exists o',
    forEach names (reduce_slice c a t) w =
      (outcome_of (pass_result (finalReducers c) a names m b).2,
       World (<[t := o']> (maps w)) (caches w) (draws w)
             (trace w ++ (pass_result (finalReducers c) a names m b).1))
    /\ forall m' b', (pass_result (finalReducers c) a names m b).2 = inr (m', b') ->
                     o' = MapObject m' true b'.
Proof.
  induction names as [|k rest IH]; intros w t m b Ht.
  - exists (MapObject m true b). simpl. split.
    + unfold ret. rewrite list_insert_id by done. rewrite app_nil_r.
      destruct w; reflexivity.
    + intros m' b' [= <- <-]. reflexivity.
  - simpl forEach. unfold bind. rewrite (reduce_slice_step w t m b k Ht).
    simpl pass_result.
    destruct (own_property (finalReducers c) k) as [f|].
    2:{ exists (MapObject m true b). simpl. split; [|discriminate].
        rewrite list_insert_id by done. rewrite app_nil_r. destruct w; reflexivity. }
    cbv zeta.
    destruct (is_undefined (f (default undefined (m !! k)) a)) eqn:Hu.
    { exists (MapObject m true b). simpl. split; [|discriminate].
      rewrite list_insert_id by done. reflexivity. }
    set (next := f (default undefined (m !! k)) a) in *.
    set (b2 := b || negb (bool_decide (m !! k = Some next))).
    set (w2 := World _ _ _ _).
    assert (Ht2 : maps w2 !! t = Some (MapObject (<[k:=next]> m) true b2)).
    { subst w2. simpl. apply list_lookup_insert_eq. by eapply lookup_lt_Some. }
    destruct (IH w2 t _ _ Ht2) as (o' & Heq & Hfin).
    exists o'. rewrite Heq. subst w2. simpl.
    rewrite list_insert_insert_eq. rewrite <- app_assoc. simpl. split; [reflexivity|].
    exact Hfin.
Qed.

End PassLemmas.

Lemma slice_pass_persistent env (c : closure) (a : action) w l m al :
  maps w !! l = Some (MapObject m false al) ->
  let r := pass_result (finalReducers c) a (finalReducerNames c) m false in
  exists o',
    slice_pass env c (VMap l) a w =
      (pass_outcome r.2 l (length (maps w)),
       World (maps w ++ [o']) (caches w) (draws w) (trace w ++ r.1))
    /\ forall m' b', r.2 = inr (m', b') -> o' = MapObject m' (negb b') false.
Proof.
  intros Hl r.
  pose (w1 := World (maps w ++ [MapObject m true false]) (caches w) (draws w) (trace w)).
  assert (Hmut : Immutable.asMutable l w = (Return (length (maps w)), w1)).
  { unfold Immutable.asMutable, Immutable.read, Immutable.object_at, bind, ret.
    rewrite Hl. reflexivity. }
  assert (Ht : maps w1 !! length (maps w) = Some (MapObject m true false)).
  { subst w1. simpl. apply list_lookup_middle. reflexivity. }
  destruct (slice_loop c a (finalReducerNames c) w1 _ _ _ Ht) as (o' & Heq & Hfin).
  fold r in Heq, Hfin.
  assert (Hins : <[length (maps w) := o']> (maps w1) = maps w ++ [o']).
  { subst w1. simpl.
    rewrite insert_app_r_alt by lia. rewrite Nat.sub_diag. reflexivity. }
  rewrite Hins in Heq. subst w1. simpl in Heq.
  unfold slice_pass, Immutable.withMutations.
  unfold bind at 1. rewrite Hmut.
  unfold bind at 1. rewrite Heq.
  destruct (r.2) as [e | [m' b']] eqn:Hr; simpl outcome_of; cbv iota.
  - exists o'. split; [reflexivity | discriminate].
  - specialize (Hfin m' b' eq_refl). subst o'.
    unfold bind at 1, Immutable.wasAltered, Immutable.read, Immutable.object_at, bind, ret.
    cbn [maps]. rewrite list_lookup_middle by reflexivity. simpl.
    destruct b'; simpl.
    + unfold Immutable.ensureOwner.
      rewrite bool_decide_eq_false_2.
      2:{ apply lookup_lt_Some in Hl. lia. }
      unfold bind, Immutable.read, Immutable.object_at, Immutable.store, ret. simpl.
      rewrite list_lookup_middle by reflexivity. simpl.
      rewrite insert_app_r_alt by lia. rewrite Nat.sub_diag. simpl.
      eexists. split; [reflexivity|]. intros ? ? [= <- <-]. reflexivity.
    + eexists. split; [reflexivity|]. intros ? ? [= <- <-]. reflexivity.
Qed.

(** *** What a pass leaves in the entries *)

Section PassResult.

Variable finals : list (string * reducer).
Variable a : action.

Lemma pass_lookup_other names : forall m b m' b' k,
  (pass_result finals a names m b).2 = inr (m', b') ->
  k ∉ names -> m' !! k = m !! k.
Proof.
  induction names as [|k0 rest IH]; intros m b m' b' k Hr Hk; simpl in Hr.
  - by injection Hr as <- <-.
  - destruct (own_property finals k0) as [f|]; [|discriminate].
    destruct (is_undefined _); [discriminate|]. simpl in Hr.
    rewrite (IH _ _ _ _ k Hr) by set_solver.
    apply lookup_insert_ne. set_solver.
Qed.

Lemma pass_lookup_registered names : forall m b m' b' k f,
  NoDup names ->
  (pass_result finals a names m b).2 = inr (m', b') ->
  k ∈ names -> own_property finals k = Some f ->
  m' !! k = Some (f (default undefined (m !! k)) a).
Proof.
  induction names as [|k0 rest IH]; intros m b m' b' k f Hnd Hr Hk Hf; simpl in Hr.
  - set_solver.
  - apply NoDup_cons in Hnd as [Hk0 Hnd].
    destruct (own_property finals k0) as [f0|] eqn:Hf0; [|discriminate].
    destruct (is_undefined _); [discriminate|]. simpl in Hr.
    destruct (decide (k = k0)) as [->|Hne].
    + rewrite (pass_lookup_other _ _ _ _ _ k0 Hr Hk0).
      rewrite lookup_insert_eq. congruence.
    + apply elem_of_cons in Hk as [?|Hk]; [done|].
      rewrite (IH _ _ _ _ k f Hnd Hr Hk Hf).
      by rewrite lookup_insert_ne.
Qed.

Lemma pass_flag_false names : forall m b m',
  NoDup names ->
  (pass_result finals a names m b).2 = inr (m', false) ->
  b = false /\ m' = m /\ forall k, k ∈ names -> writes_nothing_new finals a m k.
Proof.
  induction names as [|k0 rest IH]; intros m b m' Hnd Hr; simpl in Hr.
  - injection Hr as <- <-. set_solver.
  - apply NoDup_cons in Hnd as [Hk0 Hnd].
    destruct (own_property finals k0) as [f0|] eqn:Hf0; [|discriminate].
    destruct (is_undefined _); [discriminate|]. simpl in Hr.
    destruct (IH _ _ _ Hnd Hr) as (Hb & -> & Hall).
    apply orb_false_iff in Hb as [-> Hsame].
    apply negb_false_iff, bool_decide_eq_true in Hsame.
    split; [done|]. split; [by apply insert_id|].
    intros k [->|Hk]%elem_of_cons f Hf.
    + congruence.
    + specialize (Hall k Hk f Hf).
      rewrite lookup_insert_ne in Hall; [exact Hall|].
      intros ->. contradiction.
Qed.

Lemma pass_flag_true names : forall m m' b',
  (pass_result finals a names m true).2 = inr (m', b') -> b' = true.
Proof.
  induction names as [|k0 rest IH]; intros m m' b' Hr; simpl in Hr.
  - by injection Hr as <- <-.
  - destruct (own_property finals k0) as [f0|]; [|discriminate].
    destruct (is_undefined _); [discriminate|]. simpl in Hr. eauto.
Qed.

(** A pass in which every reducer gives back a defined value that is
    already stored ends normally and leaves everything as it was. *)
Lemma pass_echo names : forall m,
  (forall k, k ∈ names ->
     exists f v, own_property finals k = Some f /\ m !! k = Some v
                 /\ f v a = v /\ is_undefined v = false) ->
  pass_result finals a names m false
  = (map (fun k => Called k (default undefined (m !! k)) a) names, inr (m, false)).
Proof.
  induction names as [|k0 rest IH]; intros m Hall; simpl; [done|].
  destruct (Hall k0) as (f & v & Hf & Hv & Hecho & Hdef); [set_solver|].
  rewrite Hf, Hv. simpl. rewrite Hecho, Hdef.
  rewrite bool_decide_eq_true_2 by done. simpl.
  rewrite insert_id by done.
  rewrite IH by (intros; apply Hall; set_solver). reflexivity.
Qed.

(** A pass stops at the first reducer that gives [undefined]. *)
Lemma pass_stops pre : forall k post f m b,
  NoDup (pre ++ k :: post) ->
  (forall k', k' ∈ pre ->
     exists f', own_property finals k' = Some f'
                /\ is_undefined (f' (default undefined (m !! k')) a) = false) ->
  own_property finals k = Some f ->
  is_undefined (f (default undefined (m !! k)) a) = true ->
  pass_result finals a (pre ++ k :: post) m b
  = (map (fun k' => Called k' (default undefined (m !! k')) a) (pre ++ [k]),
     inl (Error (getUndefinedStateErrorMessage k a))).
Proof.
  induction pre as [|k0 rest IH]; intros k post f m b Hnd Hpre Hf Hu.
  - simpl. rewrite Hf, Hu. reflexivity.
  - rewrite <- !app_comm_cons in *. cbn [pass_result map].
    apply NoDup_cons in Hnd as [Hk0 Hnd].
    destruct (Hpre k0) as (f0 & Hf0 & Hd0); [set_solver|].
    rewrite Hf0. cbv zeta. rewrite Hd0.
    assert (Hother : forall k', k' ∈ rest ++ k :: post ->
              <[k0 := f0 (default undefined (m !! k0)) a]> m !! k' = m !! k').
    { intros k' Hk'. apply lookup_insert_ne. intros ->. contradiction. }
    rewrite (IH k post f); try done.
    + cbn [fst snd]. f_equal. f_equal. apply map_ext_in. intros k' Hk'.
      rewrite Hother; [done|]. apply list_elem_of_In in Hk'.
      apply elem_of_app in Hk' as [Hk'|Hk']; apply elem_of_app; [by left|].
      apply list_elem_of_singleton in Hk' as ->. right. by left.
    + intros k' Hk'. destruct (Hpre k') as (f' & Hf' & Hd'); [by right|].
      exists f'. rewrite Hother; [done|]. apply elem_of_app. by left.
    + rewrite Hother; [done|]. apply elem_of_app. right. by left.
Qed.

End PassResult.

Lemma pass_calls finals a names : forall m b,
  Forall (fun e => exists k s, e = Called k s a) (pass_result finals a names m b).1.
Proof.
  induction names as [|k rest IH]; intros m b; simpl; [constructor|].
  destruct (own_property finals k) as [f|]; [|constructor].
  destruct (is_undefined _); simpl; repeat constructor; eauto.
Qed.

Lemma pass_unchanged finals a names : forall m b m' b',
  (pass_result finals a names m b).2 = inr (m', b') ->
  (forall k f, k ∈ names -> own_property finals k = Some f ->
               m !! k = Some (f (default undefined (m !! k)) a)) ->
  b' = b.
Proof.
  induction names as [|k0 rest IH]; intros m b m' b' Hr Hall; simpl in Hr.
  - by injection Hr as <- <-.
  - destruct (own_property finals k0) as [f0|] eqn:Hf0; [|discriminate].
    destruct (is_undefined _); [discriminate|]. simpl in Hr.
    assert (H0 : m !! k0 = Some (f0 (default undefined (m !! k0)) a))
      by (apply Hall; [set_solver|done]).
    rewrite insert_id in Hr by done.
    rewrite bool_decide_eq_true_2 in Hr by done. simpl in Hr.
    rewrite orb_false_r in Hr.
    apply (IH _ _ _ _ Hr). intros k f Hk. apply Hall. set_solver.
Qed.

(** ** Construction *)

(** *** Records of reducers *)

Lemma Object_keys_set_property {A} (o : list (string * A)) k x :
  Object_keys (set_property o k x)
  = if bool_decide (k ∈ Object_keys o) then Object_keys o else Object_keys o ++ [k].
Proof.
  unfold Object_keys. induction o as [|[k' y] rest IH]; simpl; [done|].
  rewrite (bool_decide_ext (k ∈ k' :: map fst rest) (k = k' ∨ k ∈ map fst rest))
    by apply elem_of_cons.
  destruct (decide (k' = k)) as [->|Hne].
  - rewrite bool_decide_eq_true_2 by done.
    rewrite bool_decide_eq_true_2 by (by left). done.
  - rewrite bool_decide_eq_false_2 by done. simpl. rewrite IH.
    destruct (decide (k ∈ map fst rest)).
    + rewrite bool_decide_eq_true_2 by done.
      rewrite bool_decide_eq_true_2 by (by right). done.
    + rewrite bool_decide_eq_false_2 by done.
      rewrite bool_decide_eq_false_2 by (by intros [|]). done.
Qed.

Lemma NoDup_set_property {A} (o : list (string * A)) k x :
  NoDup (Object_keys o) -> NoDup (Object_keys (set_property o k x)).
Proof.
  intros Hnd. rewrite Object_keys_set_property. case_bool_decide; [done|].
  apply NoDup_app. split; [done|]. split; [|apply NoDup_singleton].
  intros k' Hin Hk%list_elem_of_singleton. by subst.
Qed.

Lemma NoDup_assign {A} (o : list (string * A)) k x :
  NoDup (Object_keys o) -> NoDup (Object_keys (assign o k x)).
Proof.
  intros Hnd. unfold assign. case_bool_decide; [done|]. by apply NoDup_set_property.
Qed.

Lemma own_property_app {A} (pre rest : list (string * A)) k x :
  k ∉ Object_keys pre -> own_property (pre ++ (k, x) :: rest) k = Some x.
Proof.
  unfold Object_keys. induction pre as [|[k' y] pre IH]; simpl; intros Hk.
  - by rewrite bool_decide_eq_true_2.
  - apply not_elem_of_cons in Hk as [Hne Hk].
    rewrite bool_decide_eq_false_2 by done. by apply IH.
Qed.

Lemma own_property_is_Some {A} (o : list (string * A)) k :
  k ∈ Object_keys o -> is_Some (own_property o k).
Proof.
  unfold Object_keys. induction o as [|[k' y] rest IH]; simpl; intros Hk.
  - by apply elem_of_nil in Hk.
  - case_bool_decide; [eauto|]. apply IH.
    by apply elem_of_cons in Hk as [->|Hk].
Qed.

Lemma own_property_elem {A} (o : list (string * A)) k x :
  own_property o k = Some x -> k ∈ Object_keys o.
Proof.
  unfold Object_keys. induction o as [|[k' y] rest IH]; simpl; [done|].
  case_bool_decide; [intros _; subst; by left|]. intros Hk. right. by apply IH.
Qed.

Lemma NoDup_functions_of reducers names : forall acc,
  NoDup (Object_keys acc) -> NoDup (Object_keys (functions_of reducers names acc)).
Proof.
  induction names as [|k rest IH]; intros acc Hnd; simpl; [done|].
  destruct (own_property reducers k) as [[f|v]|]; auto using NoDup_assign.
Qed.

(** *** The loops of [combineReducers] *)

Section Construction.

Variable env : environment.

Lemma warning_run message w :
  warning env message w
  = (Return tt, World (maps w) (caches w) (draws w) (trace w ++ console_line env message)).
Proof.
  unfold warning, console_line, bind, try_catch, throw, emit, ret.
  destruct (has_console env); simpl; [reflexivity|].
  rewrite app_nil_r. destruct w; reflexivity.
Qed.

Lemma collect_run reducers names : forall acc w,
  exists evs,
    collect env reducers names acc w
    = (Return (functions_of reducers names acc),
       World (maps w) (caches w) (draws w) (trace w ++ evs)).
Proof.
  induction names as [|k rest IH]; intros acc w; simpl.
  - exists []. unfold ret. rewrite app_nil_r. destruct w; reflexivity.
  - unfold bind at 1.
    assert (Hfirst : exists evs,
      (match default (NotFn undefined) (own_property reducers k) with
       | NotFn (VPrim PUndefined) =>
           if not_production env then
             warning env ("No reducer provided for key " +:+ dq +:+ k +:+ dq)
           else ret tt
       | _ => ret tt
       end) w = (Return tt, World (maps w) (caches w) (draws w) (trace w ++ evs))).
    { assert (Hid : ret tt w = (Return tt, World (maps w) (caches w) (draws w) (trace w ++ []))).
      { unfold ret. rewrite app_nil_r. destruct w; reflexivity. }
      destruct (default (NotFn undefined) (own_property reducers k)) as [f|[[]| |]];
        eauto.
      destruct (not_production env); eauto. rewrite warning_run. eauto. }
    destruct Hfirst as (evs1 & ->).
    destruct (own_property reducers k) as [[f|v]|]; simpl.
    + destruct (IH (assign acc k f) (World (maps w) (caches w) (draws w) (trace w ++ evs1)))
        as (evs2 & ->). simpl. exists (evs1 ++ evs2). by rewrite app_assoc.
    + destruct (IH acc (World (maps w) (caches w) (draws w) (trace w ++ evs1)))
        as (evs2 & ->). simpl. exists (evs1 ++ evs2). by rewrite app_assoc.
    + destruct (IH acc (World (maps w) (caches w) (draws w) (trace w ++ evs1)))
        as (evs2 & ->). simpl. exists (evs1 ++ evs2). by rewrite app_assoc.
Qed.

Lemma probe_loop rs : forall pre w,
  NoDup (Object_keys (pre ++ rs)) ->
  exists n evs,
    forEach (Object_keys rs) (probe_reducer env (pre ++ rs)) w
    = (verdict_outcome (sanity_verdict env rs (draws w)),
       World (maps w) (caches w) n (trace w ++ evs)).
Proof.
  induction rs as [|[k f] rest IH]; intros pre w Hnd.
  - exists (draws w), []. simpl. unfold ret. rewrite app_nil_r. destruct w; reflexivity.
  - assert (Hk : k ∉ Object_keys pre).
    { unfold Object_keys in *. rewrite map_app in Hnd.
      apply NoDup_app in Hnd as (_ & Hd & _). intros Hin. apply (Hd k Hin). by left. }
    change (Object_keys ((k, f) :: rest)) with (k :: Object_keys rest).
    cbn [forEach sanity_verdict]. unfold bind at 1.
    unfold probe_reducer at 1. rewrite own_property_app by done.
    unfold call, emit, bind, ret, init_action. cbn [maps caches draws trace].
    destruct (is_undefined (f undefined _)) eqn:Hinit.
    { unfold throw. simpl. eauto. }
    unfold Math_random_suffix. cbn [maps caches draws trace].
    unfold probe_action.
    destruct (is_undefined (f undefined (Action (PStr (probe_type _)) undefined))) eqn:Hprobe.
    { unfold throw. simpl. rewrite <- app_assoc. eauto. }
    replace (pre ++ (k, f) :: rest) with ((pre ++ [(k, f)]) ++ rest) in *
      by (by rewrite <- app_assoc).
    edestruct (IH (pre ++ [(k, f)])) as (n & evs & ->); [done|].
    simpl. rewrite <- !app_assoc. eauto.
Qed.

Lemma assertReducerSanity_run rs w :
  NoDup (Object_keys rs) ->
  exists n evs,
    assertReducerSanity env rs w
    = (verdict_outcome (sanity_verdict env rs (draws w)),
       World (maps w) (caches w) n (trace w ++ evs)).
Proof. intros Hnd. apply (probe_loop rs [] w Hnd). Qed.

Lemma combineReducers_run reducers w :
  exists n evs,
    combineReducers env (AObject reducers) w
    = (Return (built env reducers (draws w) (length (caches w))),
       World (maps w)
             (if not_production env then caches w ++ [∅] else caches w)
             n (trace w ++ evs)).
Proof.
  unfold combineReducers, built.
  set (finals := functions_of reducers (Object_keys reducers) []).
  destruct (collect_run reducers (Object_keys reducers) [] w) as (evs1 & Hc).
  fold finals in Hc. unfold bind at 1. rewrite Hc.
  assert (Hnd : NoDup (Object_keys finals)).
  { apply NoDup_functions_of. constructor. }
  unfold bind at 1.
  destruct (not_production env).
  - unfold bind at 1, new_object, ret at 1. cbn [maps caches draws trace].
    unfold bind at 1, try_catch, bind at 1.
    edestruct (assertReducerSanity_run finals) as (n & evs2 & ->); [done|].
    cbn [maps caches draws trace].
    destruct (sanity_verdict env finals (draws w)); simpl; unfold ret;
      rewrite <- app_assoc; eauto.
  - unfold ret at 1.
    unfold bind at 1, try_catch, bind at 1.
    edestruct (assertReducerSanity_run finals) as (n & evs2 & ->); [done|].
    cbn [maps caches draws trace].
    destruct (sanity_verdict env finals (draws w)); simpl; unfold ret;
      rewrite <- app_assoc; eauto.
Qed.

End Construction.

Lemma built_closure env reducers w0 c w1 :
  combineReducers env (AObject reducers) w0 = (Return c, w1) ->
  c = built env reducers (draws w0) (length (caches w0)).
Proof.
  destruct (combineReducers_run env reducers w0) as (n & evs & ->). congruence.
Qed.

(** *** Sanity errors *)




(** ** Invocation *)

(** *** Console lines and calls of a trace *)

Lemma console_lines_app tr1 tr2 :
  Runs.console_lines (tr1 ++ tr2) = Runs.console_lines tr1 ++ Runs.console_lines tr2.
Proof. apply omap_app. Qed.

Lemma call_events_app tr1 tr2 :
  call_events (tr1 ++ tr2) = call_events tr1 ++ call_events tr2.
Proof. apply omap_app. Qed.

Lemma console_lines_console_line env message :
  Runs.console_lines (console_line env message)
  = if has_console env then [message] else [].
Proof. unfold console_line. by destruct (has_console env). Qed.

Lemma call_events_console_line env message :
  call_events (console_line env message) = [].
Proof. unfold console_line. by destruct (has_console env). Qed.

(** *** What the slice pass can touch and throw *)

Lemma reduce_slice_frame c a t k w :
  pass_frame c a [k] w (reduce_slice c a t k w).
Proof.
  unfold pass_frame, reduce_slice, Immutable.get, Immutable.read, bind, ret.
  destruct (own_property (finalReducers c) k) as [f|] eqn:Hf.
  - unfold call, emit, bind, ret. cbn [maps caches draws trace].
    destruct (is_undefined _).
    + cbn [fst snd caches draws trace throw]. rewrite console_lines_app, app_nil_r.
      repeat split; try done. intros e [= <-]. exists k. split; [by left|]. left. eauto.
    + unfold Immutable.set, Immutable.read, Immutable.store, Immutable.alloc, bind, ret.
      cbn [maps caches draws trace].
      repeat (match goal with |- context [if ?b then _ else _] => destruct b end);
        cbn [fst snd caches draws trace]; rewrite console_lines_app, app_nil_r;
        repeat split; done.
  - cbn [fst snd throw]. repeat split; try done.
    intros e [= <-]. exists k. split; [by left|]. by right.
Qed.

Lemma slice_loop_frame c a t names : forall w,
  pass_frame c a names w (forEach names (reduce_slice c a t) w).
Proof.
  induction names as [|k rest IH]; intros w.
  - cbn. unfold pass_frame. cbn. repeat split; done.
  - cbn [forEach]. unfold bind.
    pose proof (reduce_slice_frame c a t k w) as (Hc & Hd & Hl & He).
    destruct (reduce_slice c a t k w) as [[[]|e] w2]; cbn [fst snd] in *.
    + destruct (IH w2) as (Hc2 & Hd2 & Hl2 & He2).
      unfold pass_frame. rewrite Hc2, Hd2, Hl2. repeat split; try done.
      intros e Hthrow. destruct (He2 e Hthrow) as (k' & Hk' & Hcase).
      exists k'. split; [by right|done].
    + unfold pass_frame. cbn [fst snd]. repeat split; try done.
      intros e' [= <-]. destruct (He e eq_refl) as (k' & Hk' & Hcase).
      apply list_elem_of_singleton in Hk' as ->. exists k. split; [by left|done].
Qed.

Lemma asMutable_frame l w :
  exists t w1,
    Immutable.asMutable l w = (Return t, w1)
    /\ caches w1 = caches w /\ draws w1 = draws w /\ trace w1 = trace w.
Proof.
  unfold Immutable.asMutable, Immutable.read, Immutable.alloc, bind, ret.
  destruct (transient _); eauto 10.
Qed.

Lemma console_lines_of_calls (a : action) (calls : list (string * value)) :
  Runs.console_lines (map (fun p => Called p.1 p.2 a) calls) = [].
Proof. induction calls as [|p calls IH]; [done|]. exact IH. Qed.

Lemma slice_pass_frame env c s a w :
  caches (slice_pass env c s a w).2 = caches w
  /\ draws (slice_pass env c s a w).2 = draws w
  /\ Runs.console_lines (trace (slice_pass env c s a w).2) = Runs.console_lines (trace w)
  /\ forall e, (slice_pass env c s a w).1 = Throw e ->
       (e = TypeError (no_withMutations s) /\ Immutable.isMap s = false
        /\ other_withMutations env s = None)
       \/ (exists pass, other_withMutations env s = Some pass
            /\ (pass (finalReducerNames c) (finalReducers c) a w).2 = Throw e)
       \/ exists k, k ∈ finalReducerNames c
            /\ ((e = Error (getUndefinedStateErrorMessage k a)
                 /\ is_Some (own_property (finalReducers c) k))
                \/ (e = TypeError (NotAFunction k)
                    /\ own_property (finalReducers c) k = None)).
Proof.
  destruct s as [p|l|id cls]; cbn [slice_pass];
    [ cbn; repeat split; try done; intros e [= <-]; by left
    |
    | destruct (other_withMutations env (VObject id cls)) as [pass|] eqn:Hother;
      [ cbn [fst snd caches draws trace];
        rewrite console_lines_app, console_lines_of_calls, app_nil_r;
        repeat split; try done; intros e He; right; left; eauto
      | cbn; repeat split; try done; intros e [= <-]; by left ] ].
  destruct (Immutable.withMutations l _ w) as [r wf] eqn:Hrun. cbn [fst snd].
  destruct (asMutable_frame l w) as (t & w1' & Hmut & Hc1 & Hd1 & Ht1).
  unfold Immutable.withMutations in Hrun. unfold bind at 1 in Hrun.
  rewrite Hmut in Hrun. unfold bind at 1 in Hrun.
  pose proof (slice_loop_frame c a t (finalReducerNames c) w1') as (Hc & Hd & Hl & He).
  destruct (forEach (finalReducerNames c) (reduce_slice c a t) w1') as [[[]|e] w2];
    cbn [fst snd] in *.
  - unfold Immutable.wasAltered, Immutable.ensureOwner, Immutable.read,
      Immutable.store, bind, ret in Hrun.
    rewrite <- Hc1, <- Hd1, <- Ht1, <- Hc, <- Hd, <- Hl.
    repeat (match type of Hrun with
            | context [if ?b then _ else _] => destruct b
            end);
      injection Hrun as <- <-; repeat split; done.
  - injection Hrun as <- <-. rewrite Hc, Hd, Hl, Hc1, Hd1, Ht1.
    repeat split; try done. intros e' [= <-]. right. right. by apply He.
Qed.

(** *** The shape diagnostics *)

(** Without a slice of that name, [hasOwnProperty] is the inherited
    method. *)
Lemma hasOwnProperty_inherited finals k w :
  own_property finals "hasOwnProperty" = None ->
  hasOwnProperty finals k w
  = (Return (VPrim (PBool (bool_decide (k ∈ Object_keys finals)))), w).
Proof. intros Hno. unfold hasOwnProperty. by rewrite Hno. Qed.

(** One step of the traversal that marks the unexpected keys, and the
    whole traversal, whatever is registered. *)
Lemma mark_step_frame finals cache k w :
  check_frame finals cache [k] w
    ((keep <- (own <- hasOwnProperty finals k ;;
               if ToBoolean own then ret false
               else cached <- cache_has cache k ;; ret (negb cached)) ;;
      if keep then cache_set cache k else ret tt) w).
Proof.
  assert (Hk : k ∈ [k]) by (by left).
  unfold check_frame, hasOwnProperty, call_without_action, emit, lift, bind, ret.
  destruct (own_property finals "hasOwnProperty") as [f|] eqn:Hf.
  - cbn [maps caches draws trace].
    destruct (run_without_action f (PStr k)) as [v|e0] eqn:Hrun.
    + destruct (ToBoolean v).
      * cbn. rewrite console_lines_app, app_nil_r. repeat split; done.
      * destruct cache as [cid|]; unfold cache_has, cache_set, throw.
        -- cbn [maps caches draws trace].
           destruct (negb _); cbn; rewrite console_lines_app, app_nil_r;
             repeat split; done.
        -- cbn. rewrite console_lines_app, app_nil_r. repeat split; try done.
           intros e [= <-]. exists k. split; [done|]. by left.
    + cbn. rewrite console_lines_app, app_nil_r. repeat split; try done.
      intros e [= <-]. exists k. split; [done|]. right. eauto.
  - cbn [ToBoolean truthy].
    destruct (bool_decide (k ∈ Object_keys finals)); [cbn; repeat split; done|].
    destruct cache as [cid|]; unfold cache_has, cache_set, throw.
    + destruct (negb _); cbn; repeat split; done.
    + cbn. repeat split; try done.
      intros e [= <-]. exists k. split; [done|]. by left.
Qed.

Lemma mark_loop_frame finals cache keys : forall w,
  check_frame finals cache keys w
    (forEach keys
       (fun k =>
          keep <- (own <- hasOwnProperty finals k ;;
                   if ToBoolean own then ret false
                   else cached <- cache_has cache k ;; ret (negb cached)) ;;
          if keep then cache_set cache k else ret tt) w).
Proof.
  induction keys as [|k rest IH]; intros w.
  - cbn. unfold check_frame. cbn. repeat split; done.
  - cbn [forEach]. unfold bind at 1.
    pose proof (mark_step_frame finals cache k w) as (Hm & Hd & Hl & He).
    match goal with
    | |- context [match ?step with _ => _ end] => destruct step as [[[]|e] w2]
    end; cbn [fst snd] in *.
    + destruct (IH w2) as (Hm2 & Hd2 & Hl2 & He2).
      unfold check_frame. rewrite Hm2, Hd2, Hl2. repeat split; try done.
      intros e Hthrow. destruct (He2 e Hthrow) as (k' & Hk' & Hcase).
      exists k'. split; [by right|done].
    + unfold check_frame. cbn [fst snd]. repeat split; try done.
      intros e' [= <-]. destruct (He e eq_refl) as (k' & Hk' & Hcase).
      apply list_elem_of_singleton in Hk' as ->. exists k. split; [by left|done].
Qed.

Lemma shape_no_reducers s a cache w :
  getUnexpectedStateShapeWarningMessage s [] a cache w
  = (Return (Some no_reducer_message), w).
Proof. reflexivity. Qed.

(** The check of a state that is not a map: the tag decides. *)
Lemma shape_not_map s finals a cache w :
  finals <> [] -> Immutable.isMap s = false ->
  getUnexpectedStateShapeWarningMessage s finals a cache w
  = match match_class (Object_toString s) with
    | Some observed =>
        (Return (Some (unexpected_type_message (argument_name a) observed
                         (Object_keys finals))), w)
    | None => (Throw (TypeError (PropertyOfNullish "1")), w)
    end.
Proof.
  intros Hne Hs. unfold getUnexpectedStateShapeWarningMessage.
  destruct finals as [|p rest] eqn:Hfin; [done|]. rewrite <- Hfin.
  replace (length (Object_keys finals) =? 0)%nat with false
    by (by rewrite Hfin).
  rewrite Hs. cbn [negb]. by destruct (match_class _).
Qed.

(** The check of a map is the traversal that marks. *)
Lemma shape_of_map l finals a cache w :
  finals <> [] ->
  getUnexpectedStateShapeWarningMessage (VMap l) finals a cache w
  = match forEach (Immutable.keys_of (Immutable.object_at w l))
            (fun k =>
               keep <- (own <- hasOwnProperty finals k ;;
                        if ToBoolean own then ret false
                        else cached <- cache_has cache k ;; ret (negb cached)) ;;
               if keep then cache_set cache k else ret tt) w with
    | (Return _, w2) => (Return None, w2)
    | (Throw e, w2) => (Throw e, w2)
    end.
Proof.
  intros Hne. unfold getUnexpectedStateShapeWarningMessage.
  destruct finals as [|p rest] eqn:Hfin; [done|]. rewrite <- Hfin.
  replace (length (Object_keys finals) =? 0)%nat with false
    by (by rewrite Hfin).
  cbn [Immutable.isMap negb Immutable.Seq_length gt_num].
  unfold Immutable.Seq_forEach, Immutable.keySeq_filter.
  cbn [Immutable.source Immutable.predicate].
  unfold bind at 1, bind at 1, Immutable.read at 1.
  match goal with
  | |- context [forEach ?ks ?body w] => destruct (forEach ks body w) as [[[]|e] w2]
  end; reflexivity.
Qed.

Lemma truthy_append_l (x y : string) :
  x <> EmptyString -> truthy (PStr (x +:+ y)) = true.
Proof.
  intros Hx. destruct x as [|ch x]; [done|]. reflexivity.
Qed.

Lemma truthy_unexpected_type_message n o ks :
  truthy (PStr (unexpected_type_message n o ks)) = true.
Proof. unfold unexpected_type_message. by apply truthy_append_l. Qed.

(** The diagnostic block leaves the maps and the random source alone.  It
    throws only where the tag of a state that is not a map has no class
    to show, or where the check of a map does. *)
Lemma diagnostics_frame env c s a w :
  maps (diagnostics env c s a w).2 = maps w
  /\ draws (diagnostics env c s a w).2 = draws w
  /\ forall e, (diagnostics env c s a w).1 = Throw e ->
       not_production env = true /\ finalReducers c <> []
       /\ if Immutable.isMap s then
            exists k, k ∈ state_keys w s
              /\ ((unexpectedKeyCache c = None /\ e = TypeError (PropertyOfNullish k))
                  \/ exists f, own_property (finalReducers c) "hasOwnProperty" = Some f
                               /\ run_without_action f (PStr k) = Throw e)
          else match_class (Object_toString s) = None
               /\ e = TypeError (PropertyOfNullish "1").
Proof.
  unfold diagnostics. destruct (not_production env) eqn:Hp; [|by cbn].
  destruct (finalReducers c) as [|p rest] eqn:Hfin.
  { unfold bind. rewrite shape_no_reducers.
    change (truthy (PStr no_reducer_message)) with true. cbv iota.
    rewrite warning_run. cbn. repeat split; done. }
  assert (Hne : p :: rest <> []) by done.
  destruct (Immutable.isMap s) eqn:Hs.
  - destruct s as [|l|]; try discriminate. unfold bind.
    rewrite shape_of_map by done.
    pose proof (mark_loop_frame (p :: rest) (unexpectedKeyCache c)
                  (Immutable.keys_of (Immutable.object_at w l)) w) as (Hm & Hd & _ & He).
    match goal with
    | |- context [forEach ?ks ?body w] => destruct (forEach ks body w) as [[[]|e] w2]
    end; cbn [fst snd] in *.
    + unfold ret. cbn. done.
    + cbn [fst snd]. split; [done|]. split; [done|].
      intros e' [= <-]. split; [done|]. split; [done|]. by apply He.
  - unfold bind. rewrite shape_not_map by done.
    destruct (match_class (Object_toString s)) as [observed|].
    + rewrite truthy_unexpected_type_message, warning_run. cbn. done.
    + cbn [fst snd]. split; [done|]. split; [done|].
      intros e' [= <-]. done.
Qed.

(** *** The combined reducer *)

Lemma combination_unfold env c s a w :
  combination env c s a w
  = match sanityError c with
    | Some e => (Throw e, w)
    | None =>
        match diagnostics env c (state_or_default s) a w with
        | (Return _, w2) => slice_pass env c (state_or_default s) a w2
        | (Throw e, w2) => (Throw e, w2)
        end
    end.
Proof.
  unfold combination, diagnostics, state_or_default, bind.
  destruct (is_undefined s); unfold Immutable.Map, ret;
    destruct (sanityError c); reflexivity.
Qed.


(** An invocation that returns has passed the diagnostics, which left
    the maps alone, and returns what the slice pass returns. *)
Lemma combination_returns env c s a w r w' :
  combination env c s a w = (Return r, w') ->
  sanityError c = None
  /\ exists w2, maps w2 = maps w /\ draws w2 = draws w
       /\ slice_pass env c (state_or_default s) a w2 = (Return r, w').
Proof.
  rewrite combination_unfold. destruct (sanityError c) as [e|]; [done|].
  pose proof (diagnostics_frame env c (state_or_default s) a w) as (Hm & Hd & _).
  destruct (diagnostics env c (state_or_default s) a w) as [[[]|e] w2];
    cbn [fst snd] in *; [|done].
  intros Hrun. split; [done|]. by exists w2.
Qed.

Section Diagnostics.

Variable finals : list (string * reducer).
Variable cid : nat.
Hypothesis inherited : own_property finals "hasOwnProperty" = None.

(** When the inherited [hasOwnProperty] answers, marking the unexpected
    keys touches nothing but the caches. *)
Lemma mark_loop keys : forall w,
  exists cs,
    forEach keys
      (fun k =>
         keep <- (own <- hasOwnProperty finals k ;;
                  if ToBoolean own then ret false
                  else cached <- cache_has (Some cid) k ;; ret (negb cached)) ;;
         if keep then cache_set (Some cid) k else ret tt) w
    = (Return tt, World (maps w) cs (draws w) (trace w)).
Proof.
  induction keys as [|k rest IH]; intros w; simpl.
  - exists (caches w). unfold ret. destruct w; reflexivity.
  - unfold bind at 1, bind at 1, bind at 1.
    rewrite hasOwnProperty_inherited by done. cbn [ToBoolean truthy].
    destruct (bool_decide (k ∈ Object_keys finals)).
    + unfold ret at 1. apply IH.
    + unfold bind at 1, cache_has, ret at 1.
      destruct (negb _).
      * unfold cache_set. edestruct IH as (cs & ->). simpl. eauto.
      * unfold ret at 1. apply IH.
Qed.

Lemma shape_on_map l a w :
  finals <> [] ->
  exists cs,
    getUnexpectedStateShapeWarningMessage (VMap l) finals a (Some cid) w
    = (Return None, World (maps w) cs (draws w) (trace w)).
Proof.
  intros Hne. rewrite shape_of_map by done.
  edestruct (mark_loop (Immutable.keys_of (Immutable.object_at w l)) w) as (cs & ->).
  eauto.
Qed.

End Diagnostics.

Section Invocation.

Variable env : environment.

Lemma combination_map c l a w :
  sanityError c = None ->
  (not_production env = true -> is_Some (unexpectedKeyCache c)) ->
  (not_production env = true ->
   own_property (finalReducers c) "hasOwnProperty" = None) ->
  exists cs,
    combination env c (VMap l) a w
    = slice_pass env c (VMap l) a
        (World (maps w) cs (draws w) (trace w ++ map_diagnostics env c)).
Proof.
  intros Hs Hc Hno. unfold combination, map_diagnostics.
  cbn [is_undefined]. unfold bind at 1, ret at 1. rewrite Hs.
  destruct (not_production env) eqn:Hp; cbn [andb].
  - destruct (Hc eq_refl) as [cid Hcid]. rewrite Hcid.
    destruct (finalReducers c) as [|p rest] eqn:Hfin.
    + unfold bind at 1, bind at 1. rewrite shape_no_reducers.
      change (truthy (PStr no_reducer_message)) with true. cbv iota.
      rewrite warning_run. simpl. eauto.
    + unfold bind at 1, bind at 1.
      edestruct (shape_on_map (p :: rest) cid (Hno eq_refl) l a w) as (cs & ->); [done|].
      unfold ret at 1. simpl. rewrite app_nil_r. eauto.
  - unfold bind at 1, ret at 1. exists (caches w).
    rewrite app_nil_r. destruct w; reflexivity.
Qed.

(** Closures that [combineReducers] builds. *)
Lemma built_cache reducers n k :
  not_production env = true -> is_Some (unexpectedKeyCache (built env reducers n k)).
Proof. intros Hp. unfold built. simpl. rewrite Hp. eauto. Qed.

Lemma built_names reducers n k :
  finalReducerNames (built env reducers n k)
  = Object_keys (finalReducers (built env reducers n k)).
Proof. reflexivity. Qed.

Lemma built_NoDup reducers n k :
  NoDup (finalReducerNames (built env reducers n k)).
Proof. apply NoDup_functions_of. constructor. Qed.

End Invocation.

Lemma map_diagnostics_nonempty env c :
  finalReducers c <> [] -> map_diagnostics env c = [].
Proof.
  intros Hne. unfold map_diagnostics.
  destruct (finalReducers c); [done|]. simpl. by rewrite andb_false_r.
Qed.

(** An invocation on a persistent map, when the inherited
    [hasOwnProperty] answers the shape check. *)
Lemma combination_persistent env reducers w0 c w1 l o a w :
  combineReducers env (AObject reducers) w0 = (Return c, w1) ->
  sanityError c = None ->
  (not_production env = true ->
   own_property (finalReducers c) "hasOwnProperty" = None) ->
  maps w !! l = Some o -> transient o = false ->
  let r := pass_result (finalReducers c) a (finalReducerNames c) (entries o) false in
  exists cs o',
    combination env c (VMap l) a w
    = (pass_outcome r.2 l (length (maps w)),
       World (maps w ++ [o']) cs (draws w) ((trace w ++ map_diagnostics env c) ++ r.1))
    /\ forall m' b', r.2 = inr (m', b') -> o' = MapObject m' (negb b') false.
Proof.
  intros Hb Hs Hno Hl Ht r. apply built_closure in Hb.
  destruct (combination_map env c l a w Hs) as (cs & ->); [|done|].
  { subst c. apply built_cache. }
  destruct o as [m t al]. simpl in Ht. subst t.
  edestruct (slice_pass_persistent env c a) as (o' & -> & Ho'); [exact Hl|].
  eauto.
Qed.

(** The slice pass on a mutable map works on the map itself and returns
    it. *)
Lemma slice_pass_transient env (c : closure) (a : action) w l m al :
  maps w !! l = Some (MapObject m true al) ->
  let r := pass_result (finalReducers c) a (finalReducerNames c) m al in
  exists o',
    slice_pass env c (VMap l) a w
    = (match r.2 with inl e => Throw e | inr _ => Return (VMap l) end,
       World (<[l := o']> (maps w)) (caches w) (draws w) (trace w ++ r.1))
    /\ forall m' b', r.2 = inr (m', b') -> o' = MapObject m' true b'.
Proof.
  intros Hl r.
  assert (Hmut : Immutable.asMutable l w = (Return l, w)).
  { unfold Immutable.asMutable, Immutable.read, Immutable.object_at, bind, ret.
    rewrite Hl. reflexivity. }
  destruct (slice_loop c a (finalReducerNames c) w _ _ _ Hl) as (o' & Heq & Hfin).
  fold r in Heq, Hfin.
  unfold slice_pass, Immutable.withMutations.
  unfold bind at 1. rewrite Hmut.
  unfold bind at 1. rewrite Heq.
  destruct (r.2) as [e | [m' b']] eqn:Hr; simpl outcome_of; cbv iota.
  - exists o'. split; [reflexivity | discriminate].
  - specialize (Hfin m' b' eq_refl). subst o'.
    unfold bind at 1, Immutable.wasAltered, Immutable.read, Immutable.object_at, bind, ret.
    cbn [maps]. rewrite list_lookup_insert_eq by (by eapply lookup_lt_Some). simpl.
    destruct b'; simpl.
    + unfold Immutable.ensureOwner. rewrite bool_decide_eq_true_2 by done.
      unfold ret. eexists. split; [reflexivity|]. intros ? ? [= <- <-]. reflexivity.
    + eexists. split; [reflexivity|]. intros ? ? [= <- <-]. reflexivity.
Qed.

(** An invocation on a map that returns: on a persistent map the result
    is the input or a new map, and the input is as it was; on a mutable
    map the result is the input, updated in place. *)
Lemma returned_persistent env reducers w0 c w1 l o a w r w' :
  combineReducers env (AObject reducers) w0 = (Return c, w1) ->
  maps w !! l = Some o -> transient o = false ->
  combination env c (VMap l) a w = (Return r, w') ->
  exists m' b',
    (pass_result (finalReducers c) a (finalReducerNames c) (entries o) false).2
    = inr (m', b')
    /\ r = (if b' then VMap (length (maps w)) else VMap l)
    /\ maps w' = maps w ++ [MapObject m' (negb b') false]
    /\ NoDup (finalReducerNames c).
Proof.
  intros Hb Hl Ht Hrun.
  destruct (combination_returns _ _ _ _ _ _ _ Hrun) as (Hs & w2 & Hm & _ & Hpass).
  change (state_or_default (VMap l)) with (VMap l) in Hpass.
  pose proof (built_closure _ _ _ _ _ Hb) as Hc.
  assert (Hnd : NoDup (finalReducerNames c)) by (rewrite Hc; apply built_NoDup).
  destruct o as [m t al]. simpl in Ht. subst t. rewrite <- Hm in Hl.
  destruct (slice_pass_persistent env c a w2 l m al Hl) as (o' & Hrun' & Ho').
  rewrite Hrun' in Hpass. clear Hrun'. cbn [entries].
  destruct (pass_result (finalReducers c) a (finalReducerNames c) m false).2
    as [e|[m' b']] eqn:Hr; [discriminate|].
  specialize (Ho' _ _ eq_refl). subst o'.
  exists m', b'. rewrite <- Hm.
  destruct b'; simpl in Hpass; injection Hpass as <- <-; done.
Qed.

Lemma returned_transient env reducers w0 c w1 l o a w r w' :
  combineReducers env (AObject reducers) w0 = (Return c, w1) ->
  maps w !! l = Some o -> transient o = true ->
  combination env c (VMap l) a w = (Return r, w') ->
  exists m' b',
    (pass_result (finalReducers c) a (finalReducerNames c) (entries o) (altered o)).2
    = inr (m', b')
    /\ r = VMap l
    /\ maps w' = <[l := MapObject m' true b']> (maps w)
    /\ NoDup (finalReducerNames c).
Proof.
  intros Hb Hl Ht Hrun.
  destruct (combination_returns _ _ _ _ _ _ _ Hrun) as (Hs & w2 & Hm & _ & Hpass).
  change (state_or_default (VMap l)) with (VMap l) in Hpass.
  pose proof (built_closure _ _ _ _ _ Hb) as Hc.
  assert (Hnd : NoDup (finalReducerNames c)) by (rewrite Hc; apply built_NoDup).
  destruct o as [m t al]. simpl in Ht. subst t. rewrite <- Hm in Hl.
  destruct (slice_pass_transient env c a w2 l m al Hl) as (o' & Hrun' & Ho').
  rewrite Hrun' in Hpass. clear Hrun'. cbn [entries altered].
  destruct (pass_result (finalReducers c) a (finalReducerNames c) m al).2
    as [e|[m' b']] eqn:Hr; [discriminate|].
  specialize (Ho' _ _ eq_refl). subst o'.
  exists m', b'. rewrite <- Hm. injection Hpass as <- <-. done.
Qed.

(** ** The reducers of the scenario *)

Lemma counter_defined s a : is_undefined (Scenario.counter s a) = false.
Proof.
  unfold Scenario.counter. cbn [run].
  destruct (strict_eq (atype a) _); destruct s as [[| |[]|n|x]|l|id cls]; reflexivity.
Qed.

Lemma name_defined s a : is_undefined (Scenario.name s a) = false.
Proof. destruct s as [[| |[]|n|x]|l|id cls]; reflexivity. Qed.

Lemma scenario_sane env n :
  sanity_verdict env [("counter", Scenario.counter); ("name", Scenario.name)] n = None.
Proof. cbn [sanity_verdict]. by rewrite !counter_defined, !name_defined. Qed.

(** Closed instances are settled by evaluation: the instance of the
    theorem and the statement are both normalised. *)
Ltac by_evaluation H := vm_compute in H; vm_compute; exact H.


(** * The claims *)

(** ** C1: the scenario *)

(** C1.  With the reducers [{counter, name}] of the scenario, the combined
    reducer makes one pass over the names in registration order, each
    reducer receiving the value stored under its name and the action: on
    the empty map and [{type: 'INC'}] it calls [counter] and then [name]
    with [undefined] and returns a map equal to [{counter: 1, name: ''}];
    on that result and [{type: 'INC'}] it calls them with [1] and [''] and
    returns [{counter: 2, name: ''}]. *)
Theorem C1_counter_scenario (env : environment) (w0 : world) :
  maps w0 !! Immutable.EMPTY_MAP = Some Immutable.empty_object ->
  exists c w1 l1 w2 l2 w3,
    combineReducers env (AObject Scenario.reducers) w0 = (Return c, w1)
    /\ combination env c (VMap Immutable.EMPTY_MAP) Scenario.INC w1
       = (Return (VMap l1), w2)
    /\ entries <$> maps w2 !! l1
       = Some {[ "counter" := VPrim (PNum 1); "name" := VPrim (PStr EmptyString) ]}
    /\ trace w2 = trace w1 ++ [ Called "counter" undefined Scenario.INC;
                                Called "name" undefined Scenario.INC ]
    /\ combination env c (VMap l1) Scenario.INC w2 = (Return (VMap l2), w3)
    /\ entries <$> maps w3 !! l2
       = Some {[ "counter" := VPrim (PNum 2); "name" := VPrim (PStr EmptyString) ]}
    /\ trace w3 = trace w2 ++ [ Called "counter" (VPrim (PNum 1)) Scenario.INC;
                                Called "name" (VPrim (PStr EmptyString)) Scenario.INC ].
Proof.
  intros Hempty.
  destruct (combineReducers_run env Scenario.reducers w0) as (n & evs & Hbuild).
  set (c := built env Scenario.reducers (draws w0) (length (caches w0))) in *.
  set (w1 := World _ _ _ _) in Hbuild.
  assert (Hsane : sanityError c = None) by apply scenario_sane.
  assert (Hcache : not_production env = true -> is_Some (unexpectedKeyCache c))
    by apply built_cache.
  assert (Hno : not_production env = true ->
                own_property (finalReducers c) "hasOwnProperty" = None) by reflexivity.
  (* first invocation *)
  destruct (combination_map env c Immutable.EMPTY_MAP Scenario.INC w1 Hsane Hcache Hno)
    as (cs1 & Hinv1).
  set (v1 := World _ _ _ _) in Hinv1.
  destruct (slice_pass_persistent env c Scenario.INC v1 Immutable.EMPTY_MAP ∅ false Hempty)
    as (o1 & Hpass1 & Ho1).
  rewrite Hpass1 in Hinv1. clear Hpass1.
  specialize (Ho1 _ _ eq_refl). simpl in Ho1. subst o1.
  (* second invocation *)
  set (l1 := length (maps w0)) in *.
  set (w2 := World _ _ _ _) in Hinv1.
  destruct (combination_map env c l1 Scenario.INC w2 Hsane Hcache Hno) as (cs2 & Hinv2).
  set (v2 := World _ _ _ _) in Hinv2.
  assert (Hl1 : maps v2 !! l1
                = Some (MapObject (<["name" := VPrim (PStr EmptyString)]>
                                     (<["counter" := VPrim (PNum 1)]> ∅)) false false)).
  { subst v2 w2 v1 w1 l1. cbn [maps]. apply list_lookup_middle. reflexivity. }
  destruct (slice_pass_persistent env c Scenario.INC v2 l1 _ false Hl1) as (o2 & Hpass2 & Ho2).
  rewrite Hpass2 in Hinv2. clear Hpass2.
  specialize (Ho2 _ _ eq_refl). simpl in Ho2. subst o2.
  eexists c, w1, _, w2, _, _.
  split; [exact Hbuild|]. split; [exact Hinv1|].
  split. { subst w2 v1 w1 l1. cbn [maps]. rewrite list_lookup_middle by reflexivity.
           reflexivity. }
  split. { subst w2 v1 w1. cbn [trace]. unfold map_diagnostics. cbn.
           rewrite andb_false_r. rewrite app_nil_r. reflexivity. }
  split; [exact Hinv2|].
  split. { subst v2 w2 v1 w1 l1. cbn [maps]. rewrite list_lookup_middle.
           - reflexivity.
           - rewrite length_app. simpl. lia. }
  subst v2. cbn [trace]. unfold map_diagnostics. cbn.
  rewrite andb_false_r. rewrite app_nil_r. reflexivity.
Qed.

Lemma C1_counter_scenario_witness :
  maps Scenario.initial_world !! Immutable.EMPTY_MAP = Some Immutable.empty_object
  /\ exists c w1 l1 w2 l2 w3,
    combineReducers Scenario.development (AObject Scenario.reducers) Scenario.initial_world
      = (Return c, w1)
    /\ combination Scenario.development c (VMap Immutable.EMPTY_MAP) Scenario.INC w1
       = (Return (VMap l1), w2)
    /\ entries <$> maps w2 !! l1
       = Some {[ "counter" := VPrim (PNum 1); "name" := VPrim (PStr EmptyString) ]}
    /\ trace w2 = trace w1 ++ [ Called "counter" undefined Scenario.INC;
                                Called "name" undefined Scenario.INC ]
    /\ combination Scenario.development c (VMap l1) Scenario.INC w2 = (Return (VMap l2), w3)
    /\ entries <$> maps w3 !! l2
       = Some {[ "counter" := VPrim (PNum 2); "name" := VPrim (PStr EmptyString) ]}
    /\ trace w3 = trace w2 ++ [ Called "counter" (VPrim (PNum 1)) Scenario.INC;
                                Called "name" (VPrim (PStr EmptyString)) Scenario.INC ].
Proof.
  split; [reflexivity|].
  apply (C1_counter_scenario Scenario.development Scenario.initial_world).
  reflexivity.
Defined.

(** ** C2: a failed probe is sticky *)



(** ** C3: a reducer that gives [undefined] at run time *)

(** C3 (as amended).  Take a combined reducer in which no slice is named
    [hasOwnProperty], unless the mode is production.  When the reducer
    of a registered name gives [undefined] in an invocation on a
    persistent map, the reducers before it having given defined values,
    the invocation throws an error whose message names the slice and
    quotes the discriminant of the action, as [toString] prints it, when
    that is truthy (and says "an action" when it is falsy); the message
    is none of the messages of the construction probes; the reducers
    registered after it are not called; nothing is returned, and the
    input map is as it was. *)
Theorem C3_undefined_result_aborts (env : environment)
    (reducers : list (string * candidate)) (w0 w1 : world) (c : closure)
    (l : loc) (o : map_object) (a : action) (w : world)
    (pre post : list string) (k : string) (f : reducer) :
  combineReducers env (AObject reducers) w0 = (Return c, w1) ->
  sanityError c = None ->
  (not_production env = true ->
   own_property (finalReducers c) "hasOwnProperty" = None) ->
  maps w !! l = Some o -> transient o = false ->
  finalReducerNames c = pre ++ k :: post ->
  own_property (finalReducers c) k = Some f ->
  is_undefined (f (default undefined (entries o !! k)) a) = true ->
  (forall k' f', k' ∈ pre -> own_property (finalReducers c) k' = Some f' ->
     is_undefined (f' (default undefined (entries o !! k')) a) = false) ->
  let message :=
    "Given action "
    +:+ (if truthy (atype a) then dq +:+ prim_toString (atype a) +:+ dq
         else "an action")
    +:+ ", reducer " +:+ dq +:+ k +:+ dq
    +:+ " returned undefined. To ignore an action, you must explicitly return the previous state." in
  exists w',
    combination env c (VMap l) a w = (Throw (Error message), w')
    /\ trace w' = trace w
                  ++ map (fun k' => Called k' (default undefined (entries o !! k')) a)
                         (pre ++ [k])
    /\ maps w' !! l = Some o
    /\ forall k', message <> init_error_message k'
                  /\ message <> probe_error_message k'.
Proof.
  intros Hb Hs Hno Hl Ht Hnames Hf Hu Hpre message.
  destruct (combination_persistent env reducers w0 c w1 l o a w Hb Hs Hno Hl Ht)
    as (cs & o' & Hrun & _).
  pose proof (built_closure _ _ _ _ _ Hb) as Hc.
  assert (Hnd : NoDup (pre ++ k :: post)).
  { rewrite <- Hnames, Hc. apply built_NoDup. }
  assert (Hkeys : finalReducerNames c = Object_keys (finalReducers c))
    by (by rewrite Hc).
  rewrite Hnames in Hrun.
  rewrite (pass_stops (finalReducers c) a pre k post f) in Hrun; try done.
  2:{ intros k' Hk'.
      destruct (own_property_is_Some (finalReducers c) k') as [f' Hf'].
      { rewrite <- Hkeys, Hnames. set_solver. }
      exists f'. split; [done|]. by apply Hpre. }
  rewrite map_diagnostics_nonempty in Hrun.
  2:{ intros Hnil. rewrite Hnil in Hf. discriminate. }
  rewrite app_nil_r in Hrun.
  eexists. split; [exact Hrun|]. cbn [trace maps fst snd].
  split; [reflexivity|]. split.
  - apply lookup_app_l_Some. exact Hl.
  - intros k'. subst message. split; discriminate.
Qed.

(** C3 as stated fails for a falsy discriminant: with
    [{a: (s = 0, a) => a.type === 0 ? undefined : s}] and the action
    [{type: 0}] the message says "an action" and does not show the
    discriminant. *)
Lemma C3_counterexample :
  let w := Scenario.initial_world in
  let c := (Runs.construct w [("a", Fn (Runs.refuses (PNum 0)))]).1 in
  let w1 := (Runs.construct w [("a", Fn (Runs.refuses (PNum 0)))]).2 in
  let message :=
    "Given action an action, reducer " +:+ dq +:+ "a" +:+ dq
    +:+ " returned undefined. To ignore an action, you must explicitly return the previous state." in
  combineReducers Scenario.development (AObject [("a", Fn (Runs.refuses (PNum 0)))]) w
    = (Return c, w1)
  /\ sanityError c = None
  /\ (combination Scenario.development c (VMap Immutable.EMPTY_MAP) Runs.ZERO w1).1
     = Throw (Error message)
  /\ String.index 0 (prim_toString (atype Runs.ZERO)) message = None.
Proof. vm_compute. repeat split. Qed.

Lemma C3_undefined_result_aborts_witness :
  let reducers := [("name", Fn Scenario.name);
                   ("a", Fn (Runs.refuses (PStr "BOOM")));
                   ("counter", Fn Scenario.counter)] in
  let w0 := Runs.world_with {[ "name" := VPrim (PStr "x") ]} in
  let c := (Runs.construct w0 reducers).1 in
  let w := (Runs.construct w0 reducers).2 in
  let message :=
    "Given action " +:+ dq +:+ "BOOM" +:+ dq +:+ ", reducer " +:+ dq +:+ "a" +:+ dq
    +:+ " returned undefined. To ignore an action, you must explicitly return the previous state." in
  exists w',
    combination Scenario.development c Runs.state Runs.BOOM w
    = (Throw (Error message), w')
    /\ trace w' = trace w ++ [ Called "name" (VPrim (PStr "x")) Runs.BOOM;
                               Called "a" undefined Runs.BOOM ]
    /\ maps w' !! 1%nat = Some (MapObject {[ "name" := VPrim (PStr "x") ]} false false)
    /\ forall k', message <> init_error_message k'
                  /\ message <> probe_error_message k'.
Proof.
  assert (Hpre : forall k' f', k' ∈ ["name"] ->
            own_property
              (finalReducers
                 (Runs.construct (Runs.world_with {[ "name" := VPrim (PStr "x") ]})
                    [("name", Fn Scenario.name);
                     ("a", Fn (Runs.refuses (PStr "BOOM")));
                     ("counter", Fn Scenario.counter)]).1) k' = Some f' ->
            is_undefined
              (f' (default undefined
                     (entries (MapObject {[ "name" := VPrim (PStr "x") ]} false false)
                      !! k')) Runs.BOOM) = false).
  { intros k' f' Hk' Hf'. apply list_elem_of_singleton in Hk' as ->.
    vm_compute in Hf'. injection Hf' as <-. reflexivity. }
  unshelve epose proof (C3_undefined_result_aborts Scenario.development
           [("name", Fn Scenario.name);
            ("a", Fn (Runs.refuses (PStr "BOOM")));
            ("counter", Fn Scenario.counter)]
           (Runs.world_with {[ "name" := VPrim (PStr "x") ]})
           (Runs.construct (Runs.world_with {[ "name" := VPrim (PStr "x") ]})
              [("name", Fn Scenario.name);
               ("a", Fn (Runs.refuses (PStr "BOOM")));
               ("counter", Fn Scenario.counter)]).2
           (Runs.construct (Runs.world_with {[ "name" := VPrim (PStr "x") ]})
              [("name", Fn Scenario.name);
               ("a", Fn (Runs.refuses (PStr "BOOM")));
               ("counter", Fn Scenario.counter)]).1
           1%nat (MapObject {[ "name" := VPrim (PStr "x") ]} false false)
           Runs.BOOM
           (Runs.construct (Runs.world_with {[ "name" := VPrim (PStr "x") ]})
              [("name", Fn Scenario.name);
               ("a", Fn (Runs.refuses (PStr "BOOM")));
               ("counter", Fn Scenario.counter)]).2
           ["name"] ["counter"] "a" (Runs.refuses (PStr "BOOM"))
           _ _ _ _ _ _ _ _ Hpre) as H; [vm_compute; reflexivity ..|].
  by_evaluation H.
Defined.

(** ** C4: the absent state *)

(** C4.  Invoking the combined reducer without a state is invoking it
    with the empty map, the value of [Immutable.Map()]. *)
Theorem C4_absent_state_is_empty_map (env : environment) (c : closure)
    (a : action) (w : world) :
  Immutable.Map w = (Return (VMap Immutable.EMPTY_MAP), w)
  /\ combination env c undefined a w
     = combination env c (VMap Immutable.EMPTY_MAP) a w.
Proof. split; reflexivity. Qed.

(** ** C5: actions that change nothing *)

(** C5 (as amended).  Take a combined reducer in which no slice is named
    [hasOwnProperty], unless the mode is production.  On a persistent
    map whose keys are the registered names and whose values are all
    defined, an action for which every reducer gives back the value it
    received yields a map with the entries of the input. *)
Theorem C5_noop_action_preserves_content (env : environment)
    (reducers : list (string * candidate)) (w0 w1 : world) (c : closure)
    (l : loc) (o : map_object) (a : action) (w : world) :
  combineReducers env (AObject reducers) w0 = (Return c, w1) ->
  sanityError c = None ->
  (not_production env = true ->
   own_property (finalReducers c) "hasOwnProperty" = None) ->
  maps w !! l = Some o -> transient o = false ->
  dom (entries o) = list_to_set (finalReducerNames c) ->
  (forall k f v, own_property (finalReducers c) k = Some f ->
                 entries o !! k = Some v -> f v a = v) ->
  (forall k v, entries o !! k = Some v -> is_undefined v = false) ->
  exists l' w',
    combination env c (VMap l) a w = (Return (VMap l'), w')
    /\ entries <$> maps w' !! l' = Some (entries o).
Proof.
  intros Hb Hs Hno Hl Ht Hdom Hecho Hdef.
  destruct (combination_persistent env reducers w0 c w1 l o a w Hb Hs Hno Hl Ht)
    as (cs & o' & Hrun & _).
  pose proof (built_closure _ _ _ _ _ Hb) as Hc.
  assert (Hkeys : finalReducerNames c = Object_keys (finalReducers c))
    by (by rewrite Hc).
  rewrite (pass_echo (finalReducers c) a) in Hrun.
  - exists l. eexists. split; [exact Hrun|]. cbn [maps].
    rewrite (lookup_app_l_Some _ _ _ _ Hl). reflexivity.
  - intros k Hk.
    destruct (own_property_is_Some (finalReducers c) k) as [f Hf];
      [by rewrite <- Hkeys|].
    assert (Hin : k ∈ dom (entries o)) by (rewrite Hdom; set_solver).
    apply elem_of_dom in Hin as [v Hv].
    exists f, v. repeat split; [done|done|by eapply Hecho|by eapply Hdef].
Qed.

(** C5 as stated fails when a slice holds [undefined]: the reducer
    [(s, a) => a.type === 'NOOP' ? s : (s === undefined ? 0 : s)] passes
    both probes and gives back what it received for [NOOP], the keys of
    [{a: undefined}] are the registered names, and the invocation throws. *)
Lemma C5_counterexample :
  let m : gmap string value := {[ "a" := undefined ]} in
  let w := Runs.world_with m in
  let c := (Runs.construct w [("a", Fn Runs.echo_on_noop)]).1 in
  let w1 := (Runs.construct w [("a", Fn Runs.echo_on_noop)]).2 in
  combineReducers Scenario.development (AObject [("a", Fn Runs.echo_on_noop)]) w = (Return c, w1)
  /\ sanityError c = None
  /\ finalReducers c = [("a", Runs.echo_on_noop)]
  /\ maps w1 !! 1%nat = Some (MapObject m false false)
  /\ map_to_list m = [("a", undefined)]
  /\ Runs.echo_on_noop undefined Runs.NOOP = undefined
  /\ (combination Scenario.development c Runs.state Runs.NOOP w1).1
     = Throw (Error ("Given action " +:+ dq +:+ "NOOP" +:+ dq +:+ ", reducer "
                     +:+ dq +:+ "a" +:+ dq
                     +:+ " returned undefined. To ignore an action, you must explicitly return the previous state.")).
Proof. vm_compute. repeat split. Qed.

Lemma C5_noop_action_preserves_content_witness :
  let m : gmap string value :=
    {[ "counter" := VPrim (PNum 1); "name" := VPrim (PStr "x") ]} in
  let c := (Runs.construct (Runs.world_with m) Scenario.reducers).1 in
  let w := (Runs.construct (Runs.world_with m) Scenario.reducers).2 in
  exists l' w',
    combination Scenario.development c Runs.state Runs.OTHER w = (Return (VMap l'), w')
    /\ entries <$> maps w' !! l' = Some m.
Proof.
  assert (Hecho : forall k f v,
            own_property
              (finalReducers
                 (Runs.construct
                    (Runs.world_with {[ "counter" := VPrim (PNum 1);
                                        "name" := VPrim (PStr "x") ]})
                    Scenario.reducers).1) k = Some f ->
            entries (MapObject {[ "counter" := VPrim (PNum 1);
                                  "name" := VPrim (PStr "x") ]} false false) !! k
            = Some v ->
            f v Runs.OTHER = v).
  { intros k f v Hf Hv. cbn [entries] in Hv.
    apply lookup_insert_Some in Hv as [[<- <-]|[_ Hv]].
    - vm_compute in Hf. injection Hf as <-. reflexivity.
    - apply lookup_singleton_Some in Hv as [<- <-].
      vm_compute in Hf. injection Hf as <-. reflexivity. }
  assert (Hdef : forall k v,
            entries (MapObject {[ "counter" := VPrim (PNum 1);
                                  "name" := VPrim (PStr "x") ]} false false) !! k
            = Some v ->
            is_undefined v = false).
  { intros k v Hv. cbn [entries] in Hv.
    apply lookup_insert_Some in Hv as [[_ <-]|[_ Hv]]; [reflexivity|].
    apply lookup_singleton_Some in Hv as [_ <-]. reflexivity. }
  unshelve epose proof
    (C5_noop_action_preserves_content Scenario.development Scenario.reducers
       (Runs.world_with {[ "counter" := VPrim (PNum 1); "name" := VPrim (PStr "x") ]})
       (Runs.construct
          (Runs.world_with {[ "counter" := VPrim (PNum 1); "name" := VPrim (PStr "x") ]})
          Scenario.reducers).2
       (Runs.construct
          (Runs.world_with {[ "counter" := VPrim (PNum 1); "name" := VPrim (PStr "x") ]})
          Scenario.reducers).1
       1%nat
       (MapObject {[ "counter" := VPrim (PNum 1); "name" := VPrim (PStr "x") ]}
          false false)
       Runs.OTHER
       (Runs.construct
          (Runs.world_with {[ "counter" := VPrim (PNum 1); "name" := VPrim (PStr "x") ]})
          Scenario.reducers).2
       _ _ _ _ _ _ Hecho Hdef) as H; [vm_compute; reflexivity ..|].
  by_evaluation H.
Defined.

(** ** C6: the frame of an invocation *)

(** C6 (as amended).  An invocation on a map that returns, returns a map
    in which every registered name holds the result of its reducer on
    the value the input held under that name, and every other key holds
    what the input held.  A persistent input map is unmodified; a
    mutable input map (one that [asMutable] gave) is itself the result,
    updated in place. *)
Theorem C6_frame (env : environment)
    (reducers : list (string * candidate)) (w0 w1 : world) (c : closure)
    (l : loc) (o : map_object) (a : action) (w w' : world) (r : value) :
  combineReducers env (AObject reducers) w0 = (Return c, w1) ->
  maps w !! l = Some o ->
  combination env c (VMap l) a w = (Return r, w') ->
  exists l' o',
    r = VMap l'
    /\ maps w' !! l' = Some o'
    /\ (forall k f, own_property (finalReducers c) k = Some f ->
          entries o' !! k = Some (f (default undefined (entries o !! k)) a))
    /\ (forall k, k ∉ finalReducerNames c -> entries o' !! k = entries o !! k)
    /\ if transient o then l' = l else maps w' !! l = Some o.
Proof.
  intros Hb Hl Hrun.
  pose proof (built_closure _ _ _ _ _ Hb) as Hc.
  assert (Hkeys : finalReducerNames c = Object_keys (finalReducers c))
    by (by rewrite Hc).
  assert (Hframe : forall m' b' b,
            NoDup (finalReducerNames c) ->
            (pass_result (finalReducers c) a (finalReducerNames c) (entries o) b).2
            = inr (m', b') ->
            (forall k f, own_property (finalReducers c) k = Some f ->
               m' !! k = Some (f (default undefined (entries o !! k)) a))
            /\ (forall k, k ∉ finalReducerNames c -> m' !! k = entries o !! k)).
  { intros m' b' b Hnd Hr. split.
    - intros k f Hf. eapply pass_lookup_registered; eauto.
      rewrite Hkeys. by eapply own_property_elem.
    - intros k Hk. eapply pass_lookup_other; eauto. }
  destruct (transient o) eqn:Ht.
  - destruct (returned_transient _ _ _ _ _ _ _ _ _ _ _ Hb Hl Ht Hrun)
      as (m' & b' & Hr & -> & Hmaps & Hnd).
    destruct (Hframe _ _ _ Hnd Hr) as [Hreg Hoth].
    exists l, (MapObject m' true b'). split; [done|]. split; [|done].
    rewrite Hmaps. apply list_lookup_insert_eq. by eapply lookup_lt_Some.
  - destruct (returned_persistent _ _ _ _ _ _ _ _ _ _ _ Hb Hl Ht Hrun)
      as (m' & b' & Hr & -> & Hmaps & Hnd).
    destruct (Hframe _ _ _ Hnd Hr) as [Hreg Hoth].
    assert (Hin : maps w' !! l = Some o).
    { rewrite Hmaps. by apply lookup_app_l_Some. }
    destruct b'.
    + exists (length (maps w)), (MapObject m' false false).
      split; [done|]. split; [|done].
      rewrite Hmaps. by apply list_lookup_middle.
    + exists l, o. split; [done|]. split; [done|].
      destruct (pass_flag_false _ _ _ _ _ _ Hnd Hr) as (_ & -> & _). done.
Qed.

(** C6 as stated fails on a mutable map: with the reducers of the
    scenario, the mutable map [{counter: 1}] and [{type: 'INC'}], the
    invocation returns the input map, which now holds
    [{counter: 2, name: ''}]. *)
Lemma C6_counterexample :
  let m : gmap string value := {[ "counter" := VPrim (PNum 1) ]} in
  let c := (Runs.construct (Runs.world_with_mutable m) Scenario.reducers).1 in
  let w := (Runs.construct (Runs.world_with_mutable m) Scenario.reducers).2 in
  let w' := (combination Scenario.development c (VMap 1%nat) Scenario.INC w).2 in
  combineReducers Scenario.development (AObject Scenario.reducers)
    (Runs.world_with_mutable m) = (Return c, w)
  /\ sanityError c = None
  /\ maps w !! 1%nat = Some (MapObject m true false)
  /\ (combination Scenario.development c (VMap 1%nat) Scenario.INC w).1
     = Return (VMap 1%nat)
  /\ maps w' !! 1%nat
     = Some (MapObject {[ "counter" := VPrim (PNum 2);
                          "name" := VPrim (PStr EmptyString) ]} true true).
Proof. vm_compute. repeat split. Qed.

Lemma C6_frame_witness :
  let m : gmap string value :=
    {[ "counter" := VPrim (PNum 1); "extra" := VPrim (PNum 5) ]} in
  let o := MapObject m false false in
  let c := (Runs.construct (Runs.world_with m) Scenario.reducers).1 in
  let w := (Runs.construct (Runs.world_with m) Scenario.reducers).2 in
  let w' := (combination Scenario.development c (VMap 1%nat) Scenario.INC w).2 in
  exists l' o',
    VMap 2%nat = VMap l'
    /\ maps w' !! l' = Some o'
    /\ (forall k f, own_property (finalReducers c) k = Some f ->
          entries o' !! k = Some (f (default undefined (entries o !! k)) Scenario.INC))
    /\ (forall k, k ∉ finalReducerNames c -> entries o' !! k = entries o !! k)
    /\ maps w' !! 1%nat = Some o.
Proof.
  unshelve epose proof
    (C6_frame Scenario.development Scenario.reducers
       (Runs.world_with {[ "counter" := VPrim (PNum 1); "extra" := VPrim (PNum 5) ]})
       (Runs.construct
          (Runs.world_with {[ "counter" := VPrim (PNum 1); "extra" := VPrim (PNum 5) ]})
          Scenario.reducers).2
       (Runs.construct
          (Runs.world_with {[ "counter" := VPrim (PNum 1); "extra" := VPrim (PNum 5) ]})
          Scenario.reducers).1
       1%nat
       (MapObject {[ "counter" := VPrim (PNum 1); "extra" := VPrim (PNum 5) ]}
          false false)
       Scenario.INC
       (Runs.construct
          (Runs.world_with {[ "counter" := VPrim (PNum 1); "extra" := VPrim (PNum 5) ]})
          Scenario.reducers).2
       (combination Scenario.development
          (Runs.construct
             (Runs.world_with {[ "counter" := VPrim (PNum 1); "extra" := VPrim (PNum 5) ]})
             Scenario.reducers).1
          (VMap 1%nat) Scenario.INC
          (Runs.construct
             (Runs.world_with {[ "counter" := VPrim (PNum 1); "extra" := VPrim (PNum 5) ]})
             Scenario.reducers).2).2
       (VMap 2%nat) _ _ _) as H; [vm_compute; reflexivity ..|].
  by_evaluation H.
Defined.

(** ** C7: the identity of the result *)

(** C7 (as amended).  The combined reducer has no change detection of
    its own and returns what [withMutations] returns.  On a persistent
    map that is the input map itself when every registered name already
    holds the result of its reducer, and otherwise a map that was not in
    the store before; on a mutable map it is always the input map. *)
Theorem C7_reference_identity (env : environment)
    (reducers : list (string * candidate)) (w0 w1 : world) (c : closure)
    (l : loc) (o : map_object) (a : action) (w w' : world) (r : value) :
  combineReducers env (AObject reducers) w0 = (Return c, w1) ->
  maps w !! l = Some o ->
  combination env c (VMap l) a w = (Return r, w') ->
  if transient o then r = VMap l
  else
    (r = VMap l <->
       forall k f, own_property (finalReducers c) k = Some f ->
                   entries o !! k = Some (f (default undefined (entries o !! k)) a))
    /\ (r <> VMap l -> r = VMap (length (maps w)) /\ maps w !! length (maps w) = None).
Proof.
  intros Hb Hl Hrun.
  destruct (transient o) eqn:Ht.
  { by destruct (returned_transient _ _ _ _ _ _ _ _ _ _ _ Hb Hl Ht Hrun)
      as (m' & b' & _ & -> & _). }
  destruct (returned_persistent _ _ _ _ _ _ _ _ _ _ _ Hb Hl Ht Hrun)
    as (m' & b' & Hr & -> & Hmaps & Hnd).
  pose proof (built_closure _ _ _ _ _ Hb) as Hc.
  assert (Hkeys : finalReducerNames c = Object_keys (finalReducers c))
    by (by rewrite Hc).
  assert (Hfresh : l <> length (maps w)).
  { apply lookup_lt_Some in Hl. lia. }
  destruct b'.
  - split.
    + split; [intros [=]; congruence|].
      intros Hall. exfalso.
      assert (true = false); [|discriminate].
      eapply pass_unchanged; [exact Hr|]. intros k f _ Hf. by apply Hall.
    + intros _. split; [done|]. apply lookup_ge_None. lia.
  - split; [|done]. split; [|done]. intros _ k f Hf.
    destruct (pass_flag_false _ _ _ _ _ _ Hnd Hr) as (_ & _ & Hall).
    apply Hall; [|done]. rewrite Hkeys. by eapply own_property_elem.
Qed.

(** C7 as stated fails: with the reducers of the scenario, the state
    [{counter: 1, name: ''}] and an action that neither reducer handles,
    the combined reducer returns the input map itself. *)
Lemma C7_counterexample :
  let m : gmap string value :=
    {[ "counter" := VPrim (PNum 1); "name" := VPrim (PStr EmptyString) ]} in
  let c := (Runs.construct (Runs.world_with m) Scenario.reducers).1 in
  let w := (Runs.construct (Runs.world_with m) Scenario.reducers).2 in
  combineReducers Scenario.development (AObject Scenario.reducers) (Runs.world_with m)
    = (Return c, w)
  /\ sanityError c = None
  /\ maps w !! 1%nat = Some (MapObject m false false)
  /\ (combination Scenario.development c (VMap 1%nat) Runs.OTHER w).1
     = Return (VMap 1%nat).
Proof. vm_compute. repeat split. Qed.

Lemma C7_reference_identity_witness :
  let m : gmap string value :=
    {[ "counter" := VPrim (PNum 1); "name" := VPrim (PStr EmptyString) ]} in
  let c := (Runs.construct (Runs.world_with m) Scenario.reducers).1 in
  let w := (Runs.construct (Runs.world_with m) Scenario.reducers).2 in
  let r := VMap 2%nat in
  (r = VMap 1%nat <->
     forall k f, own_property (finalReducers c) k = Some f ->
                 m !! k = Some (f (default undefined (m !! k)) Scenario.INC))
  /\ (r <> VMap 1%nat -> r = VMap (length (maps w)) /\ maps w !! length (maps w) = None).
Proof.
  unshelve epose proof
    (C7_reference_identity Scenario.development Scenario.reducers
       (Runs.world_with {[ "counter" := VPrim (PNum 1);
                           "name" := VPrim (PStr EmptyString) ]})
       (Runs.construct
          (Runs.world_with {[ "counter" := VPrim (PNum 1);
                              "name" := VPrim (PStr EmptyString) ]})
          Scenario.reducers).2
       (Runs.construct
          (Runs.world_with {[ "counter" := VPrim (PNum 1);
                              "name" := VPrim (PStr EmptyString) ]})
          Scenario.reducers).1
       1%nat
       (MapObject {[ "counter" := VPrim (PNum 1);
                     "name" := VPrim (PStr EmptyString) ]} false false)
       Scenario.INC
       (Runs.construct
          (Runs.world_with {[ "counter" := VPrim (PNum 1);
                              "name" := VPrim (PStr EmptyString) ]})
          Scenario.reducers).2
       (combination Scenario.development
          (Runs.construct
             (Runs.world_with {[ "counter" := VPrim (PNum 1);
                                 "name" := VPrim (PStr EmptyString) ]})
             Scenario.reducers).1
          (VMap 1%nat) Scenario.INC
          (Runs.construct
             (Runs.world_with {[ "counter" := VPrim (PNum 1);
                                 "name" := VPrim (PStr EmptyString) ]})
             Scenario.reducers).2).2
       (VMap 2%nat) _ _ _) as H; [vm_compute; reflexivity ..|].
  by_evaluation H.
Defined.

(** ** C8: unexpected keys *)

(** No shape diagnostic ever names a key: with at least one registered
    reducer, none of them named [hasOwnProperty], an invocation on a
    persistent map logs nothing on the console, whatever keys the map
    has. *)
Lemma unexpected_keys_never_reported (env : environment)
    (reducers : list (string * candidate)) (w0 w1 : world) (c : closure)
    (l : loc) (o : map_object) (a : action) (w : world) :
  combineReducers env (AObject reducers) w0 = (Return c, w1) ->
  sanityError c = None ->
  finalReducers c <> [] ->
  own_property (finalReducers c) "hasOwnProperty" = None ->
  maps w !! l = Some o -> transient o = false ->
  exists evs,
    trace (combination env c (VMap l) a w).2 = trace w ++ evs
    /\ Forall (fun e => exists k s, e = Called k s a) evs.
Proof.
  intros Hb Hs Hne Hno Hl Ht.
  destruct (combination_persistent env reducers w0 c w1 l o a w Hb Hs (fun _ => Hno) Hl Ht)
    as (cs & o' & -> & _).
  rewrite map_diagnostics_nonempty by done. rewrite app_nil_r.
  eexists. split; [reflexivity|]. apply pass_calls.
Qed.

(** C8, on the code: in development, with the reducer [{a}] registered
    and the state [{a: 0, bogus: 1}], the first invocation puts "bogus"
    into the cache of unexpected keys but logs nothing (the length of the
    lazy sequence of unexpected keys is [undefined], so the message is
    never built), and the second invocation logs nothing either; each
    makes the one call of the reducer [a]. *)
Theorem C8_unexpected_key_not_reported :
  let w := Runs.world_with {[ "a" := VPrim (PNum 0); "bogus" := VPrim (PNum 1) ]} in
  let c := (Runs.construct w [("a", Fn Runs.keep)]).1 in
  let w1 := (Runs.construct w [("a", Fn Runs.keep)]).2 in
  let w2 := (combination Scenario.development c Runs.state Runs.OTHER w1).2 in
  let w3 := (combination Scenario.development c Runs.state Runs.OTHER w2).2 in
  combineReducers Scenario.development (AObject [("a", Fn Runs.keep)]) w = (Return c, w1)
  /\ sanityError c = None
  /\ unexpectedKeyCache c = Some 0%nat
  /\ cache_at w1 0 = ∅
  /\ trace w2 = trace w1 ++ [Called "a" (VPrim (PNum 0)) Runs.OTHER]
  /\ Runs.console_lines (trace w2) = []
  /\ cache_at w2 0 = {[ "bogus" ]}
  /\ trace w3 = trace w2 ++ [Called "a" (VPrim (PNum 0)) Runs.OTHER]
  /\ Runs.console_lines (trace w3) = [].
Proof. vm_compute. repeat split. Qed.

(** ** C9: a state that is not a map *)



(** It fails as well on an object whose tag shows no class: with the
    reducers of the scenario and an object whose [Symbol.toStringTag] is
    the empty string, the invocation throws the TypeError of [null[1]]
    and logs nothing. *)
Lemma untagged_state_throws :
  let c := (Runs.construct Scenario.initial_world Scenario.reducers).1 in
  let w := (Runs.construct Scenario.initial_world Scenario.reducers).2 in
  match_class (Object_toString (VObject 0 EmptyString)) = None
  /\ combination Scenario.development c (VObject 0 EmptyString) Runs.OTHER w
     = (Throw (TypeError (PropertyOfNullish "1")), w).
Proof. vm_compute. repeat split. Qed.

(** On an object that is no Map and has a [withMutations] method, the
    invocation logs the type warning and then returns what that method
    returns: with the reducers of the scenario and a collection that
    holds nothing under their names, the two reducers are called on
    [undefined] and the collection comes back. *)
Lemma collection_state_is_reduced :
  let env := More.with_collection in
  let c := (combineReducers env (AObject Scenario.reducers) Scenario.initial_world).1 in
  let w := (combineReducers env (AObject Scenario.reducers) Scenario.initial_world).2 in
  let s := VObject 7 "Object" in
  exists c0,
    c = Return c0
    /\ sanityError c0 = None
    /\ Immutable.isMap s = false
    /\ combination env c0 s Runs.OTHER w
       = (Return s,
          World (maps w) (caches w) (draws w)
            (trace w
             ++ [ConsoleError
                   ("The previous state received by the reducer has unexpected type of "
                    +:+ dq +:+ "Object" +:+ dq
                    +:+ ". Expected argument to be an Immutable Map with the following keys: "
                    +:+ dq +:+ "counter" +:+ dq +:+ ", " +:+ dq +:+ "name" +:+ dq);
                 Called "counter" undefined Runs.OTHER;
                 Called "name" undefined Runs.OTHER])).
Proof. eexists. vm_compute. repeat split. Qed.


(** ** C10: the construction call *)



(** * Further properties of the code *)

(** ** The first loop of [combineReducers] *)

Lemma set_property_fresh {A} (o : list (string * A)) k x :
  k ∉ Object_keys o -> set_property o k x = o ++ [(k, x)].
Proof.
  unfold Object_keys. induction o as [|[k' y] rest IH]; simpl; intros Hk; [done|].
  apply not_elem_of_cons in Hk as [Hne Hk].
  rewrite bool_decide_eq_false_2 by done. by rewrite IH.
Qed.

Lemma Object_keys_app {A} (o1 o2 : list (string * A)) :
  Object_keys (o1 ++ o2) = Object_keys o1 ++ Object_keys o2.
Proof. apply map_app. Qed.

Lemma NoDup_keys_middle {A} (pre rest : list (string * A)) k v :
  NoDup (Object_keys (pre ++ (k, v) :: rest)) -> k ∉ Object_keys pre.
Proof.
  rewrite Object_keys_app. intros Hnd Hin.
  apply NoDup_app in Hnd as (_ & Hd & _). apply (Hd k Hin). by left.
Qed.

Lemma functions_of_suffix (suf : list (string * candidate)) : forall pre acc,
  NoDup (Object_keys (pre ++ suf)) ->
  (forall k, k ∈ Object_keys acc -> k ∈ Object_keys pre) ->
  functions_of (pre ++ suf) (Object_keys suf) acc = acc ++ omap function_entry suf.
Proof.
  induction suf as [|[k v] rest IH]; intros pre acc Hnd Hacc.
  - simpl. by rewrite app_nil_r.
  - pose proof (NoDup_keys_middle _ _ _ _ Hnd) as Hk.
    change (Object_keys ((k, v) :: rest)) with (k :: Object_keys rest).
    cbn [functions_of]. rewrite own_property_app by done.
    replace (pre ++ (k, v) :: rest) with ((pre ++ [(k, v)]) ++ rest) in *
      by (by rewrite <- app_assoc).
    destruct v as [f|v]; cbn [omap function_entry list_omap].
    + unfold assign. destruct (bool_decide (k = "__proto__")).
      * rewrite IH; [done|done|].
        intros k' Hin. rewrite Object_keys_app. apply elem_of_app. left. by apply Hacc.
      * rewrite set_property_fresh by (intros Hin; by apply Hk, Hacc).
        rewrite IH; [by rewrite <- app_assoc|done|].
        intros k'. rewrite !Object_keys_app.
        intros [Hin|Hin]%elem_of_app; apply elem_of_app; [left; by apply Hacc|by right].
    + rewrite IH; [done|done|].
      intros k' Hin. rewrite Object_keys_app. apply elem_of_app. left. by apply Hacc.
Qed.

Lemma functions_of_NoDup reducers :
  NoDup (Object_keys reducers) ->
  functions_of reducers (Object_keys reducers) [] = omap function_entry reducers.
Proof.
  intros Hnd. apply (functions_of_suffix reducers [] []); [done|].
  intros k Hk. by apply elem_of_nil in Hk.
Qed.

Lemma missing_events_suffix env (suf : list (string * candidate)) : forall pre,
  NoDup (Object_keys (pre ++ suf)) ->
  Runs.console_lines (missing_events env (pre ++ suf) (Object_keys suf))
  = missing_reducer_lines env suf
  /\ call_events (missing_events env (pre ++ suf) (Object_keys suf)) = [].
Proof.
  unfold missing_reducer_lines.
  induction suf as [|[k v] rest IH]; intros pre Hnd.
  - simpl. by destruct (_ && _).
  - pose proof (NoDup_keys_middle _ _ _ _ Hnd) as Hk.
    change (Object_keys ((k, v) :: rest)) with (k :: Object_keys rest).
    cbn [missing_events flat_map]. rewrite own_property_app by done.
    rewrite console_lines_app, call_events_app.
    replace (pre ++ (k, v) :: rest) with ((pre ++ [(k, v)]) ++ rest) in *
      by (by rewrite <- app_assoc).
    destruct (IH _ Hnd) as [IH1 IH2]. fold (missing_events env ((pre ++ [(k, v)]) ++ rest)
                                                (Object_keys rest)).
    rewrite IH1, IH2. clear IH1 IH2 IH.
    destruct v as [f|[[]| |]]; simpl (default _ _); cbv iota;
      try (split; [by destruct (_ && _)|done]).
    destruct (not_production env); simpl andb; [|done].
    rewrite console_lines_console_line, call_events_console_line.
    by destruct (has_console env).
Qed.

Section ExactRuns.

Variable env : environment.

Lemma collect_exact reducers names : forall acc w,
  collect env reducers names acc w
  = (Return (functions_of reducers names acc),
     World (maps w) (caches w) (draws w) (trace w ++ missing_events env reducers names)).
Proof.
  induction names as [|k rest IH]; intros acc w.
  - simpl. unfold ret. rewrite app_nil_r. by destruct w.
  - cbn [collect functions_of missing_events flat_map]. unfold bind at 1.
    assert (Hfirst :
      (match default (NotFn undefined) (own_property reducers k) with
       | NotFn (VPrim PUndefined) =>
           if not_production env then
             warning env ("No reducer provided for key " +:+ dq +:+ k +:+ dq)
           else ret tt
       | _ => ret tt
       end) w
      = (Return tt,
         World (maps w) (caches w) (draws w)
           (trace w ++
            match default (NotFn undefined) (own_property reducers k) with
            | NotFn (VPrim PUndefined) =>
                if not_production env
                then console_line env (missing_reducer_message k) else []
            | _ => []
            end))).
    { assert (Hid : ret tt w
                    = (Return tt, World (maps w) (caches w) (draws w) (trace w ++ []))).
      { unfold ret. rewrite app_nil_r. by destruct w. }
      destruct (default (NotFn undefined) (own_property reducers k)) as [f|[[]| |]];
        try exact Hid.
      destruct (not_production env); [|exact Hid]. apply warning_run. }
    rewrite Hfirst. clear Hfirst.
    destruct (own_property reducers k) as [[f|v]|]; simpl (default _ _); cbv beta iota;
      rewrite IH; cbn [maps caches draws trace];
      fold (missing_events env reducers rest); by rewrite <- app_assoc.
Qed.

Lemma probe_loop_exact rs : forall pre w,
  NoDup (Object_keys (pre ++ rs)) ->
  forEach (Object_keys rs) (probe_reducer env (pre ++ rs)) w
  = (verdict_outcome (sanity_verdict env rs (draws w)),
     World (maps w) (caches w) (probe_run env rs (draws w)).2
           (trace w ++ (probe_run env rs (draws w)).1)).
Proof.
  induction rs as [|[k f] rest IH]; intros pre w Hnd.
  - simpl. unfold ret. rewrite app_nil_r. by destruct w.
  - pose proof (NoDup_keys_middle _ _ _ _ Hnd) as Hk.
    change (Object_keys ((k, f) :: rest)) with (k :: Object_keys rest).
    cbn [forEach sanity_verdict probe_run]. unfold bind at 1.
    unfold probe_reducer at 1. rewrite own_property_app by done.
    unfold call, emit, bind, ret. fold init_action. cbn [maps caches draws trace].
    destruct (is_undefined (f undefined init_action)) eqn:Hinit.
    { reflexivity. }
    unfold Math_random_suffix. cbn [maps caches draws trace].
    fold (probe_action env (draws w)).
    destruct (is_undefined (f undefined (probe_action env (draws w)))) eqn:Hprobe.
    { unfold throw. cbn. by rewrite <- app_assoc. }
    replace (pre ++ (k, f) :: rest) with ((pre ++ [(k, f)]) ++ rest) in *
      by (by rewrite <- app_assoc).
    rewrite IH by done. cbn. by rewrite <- !app_assoc.
Qed.

Lemma combineReducers_exact reducers w :
  let finals := functions_of reducers (Object_keys reducers) [] in
  combineReducers env (AObject reducers) w
  = (Return (built env reducers (draws w) (length (caches w))),
     World (maps w)
           (if not_production env then caches w ++ [∅] else caches w)
           (probe_run env finals (draws w)).2
           (trace w ++ missing_events env reducers (Object_keys reducers)
                   ++ (probe_run env finals (draws w)).1)).
Proof.
  intros finals. unfold combineReducers, built. fold finals.
  unfold bind at 1. rewrite collect_exact. fold finals.
  assert (Hnd : NoDup (Object_keys ([] ++ finals))).
  { apply NoDup_functions_of. constructor. }
  unfold bind at 1.
  destruct (not_production env).
  - unfold bind at 1, new_object, ret at 1. cbn [maps caches draws trace].
    unfold bind at 1, try_catch, bind at 1, assertReducerSanity.
    rewrite (probe_loop_exact finals [] _ Hnd). cbn [maps caches draws trace].
    destruct (sanity_verdict env finals (draws w)); simpl; unfold ret;
      by rewrite <- app_assoc.
  - unfold ret at 1.
    unfold bind at 1, try_catch, bind at 1, assertReducerSanity.
    rewrite (probe_loop_exact finals [] _ Hnd). cbn [maps caches draws trace].
    destruct (sanity_verdict env finals (draws w)); simpl; unfold ret;
      by rewrite <- app_assoc.
Qed.

(** Reducers that all pass are all probed. *)
Lemma probe_run_pass rs : forall n,
  (forall i k f, rs !! i = Some (k, f) -> passes_probes env f (n + i)) ->
  sanity_verdict env rs n = None
  /\ probe_run env rs n = (sanity_calls env rs n, (n + length rs)%nat).
Proof.
  induction rs as [|[k f] rest IH]; intros n Hall.
  - simpl. by rewrite Nat.add_0_r.
  - destruct (Hall 0%nat k f eq_refl) as [H0 H1]. rewrite Nat.add_0_r in H1.
    cbn [sanity_verdict probe_run sanity_calls]. rewrite H0, H1.
    destruct (IH (S n)) as [-> ->].
    { intros i k' f' Hi. rewrite Nat.add_succ_comm. by apply (Hall (S i) k' f'). }
    split; [done|]. cbn. f_equal. lia.
Qed.

(** The probes stop at the first reducer that fails one. *)
Lemma probe_run_stop pre : forall n k f post,
  (forall i k' f', pre !! i = Some (k', f') -> passes_probes env f' (n + i)) ->
  sanity_verdict env (pre ++ (k, f) :: post) n
  = (if is_undefined (f undefined init_action) then Some (Error (init_error_message k))
     else if is_undefined (f undefined (probe_action env (n + length pre)))
          then Some (Error (probe_error_message k))
          else sanity_verdict env post (S (n + length pre)))
  /\ (is_undefined (f undefined init_action) = true ->
      probe_run env (pre ++ (k, f) :: post) n
      = (sanity_calls env pre n ++ [Called k undefined init_action],
         (n + length pre)%nat))
  /\ (is_undefined (f undefined init_action) = false ->
      is_undefined (f undefined (probe_action env (n + length pre))) = true ->
      probe_run env (pre ++ (k, f) :: post) n
      = (sanity_calls env pre n
           ++ [Called k undefined init_action;
               Called k undefined (probe_action env (n + length pre))],
         S (n + length pre))).
Proof.
  induction pre as [|[k0 f0] rest IH]; intros n k f post Hall.
  - cbn [app length sanity_verdict probe_run sanity_calls]. rewrite Nat.add_0_r.
    split; [done|]. split.
    + by intros ->.
    + by intros -> ->.
  - destruct (Hall 0%nat k0 f0 eq_refl) as [H0 H1]. rewrite Nat.add_0_r in H1.
    rewrite <- app_comm_cons.
    cbn [length sanity_verdict probe_run sanity_calls]. rewrite H0, H1.
    destruct (IH (S n) k f post) as (Hv & Hi & Hp).
    { intros i k' f' Hi. rewrite Nat.add_succ_comm. by apply (Hall (S i) k' f'). }
    rewrite <- !Nat.add_succ_comm. split; [exact Hv|]. split.
    + intros Hu. by rewrite (Hi Hu).
    + intros Hd Hu. by rewrite (Hp Hd Hu).
Qed.

End ExactRuns.

Lemma call_events_missing env reducers names :
  call_events (missing_events env reducers names) = [].
Proof.
  induction names as [|k rest IH]; [done|].
  cbn [missing_events flat_map]. rewrite call_events_app.
  fold (missing_events env reducers rest). rewrite IH, app_nil_r.
  destruct (default _ _) as [f|[[]| |]]; try done.
  destruct (not_production env); [|done]. apply call_events_console_line.
Qed.

Lemma probe_run_events env rs : forall n,
  Runs.console_lines (probe_run env rs n).1 = []
  /\ call_events (probe_run env rs n).1 = (probe_run env rs n).1.
Proof.
  induction rs as [|[k f] rest IH]; intros n; cbn [probe_run]; [done|].
  destruct (is_undefined (f undefined init_action)); [done|].
  destruct (is_undefined (f undefined (probe_action env n))); [done|].
  destruct (IH (S n)) as [IH1 IH2]. cbn [fst snd].
  change (Runs.console_lines (?a :: ?b :: ?l)) with (Runs.console_lines l).
  split; [exact IH1|].
  change (call_events (Called ?x ?y ?z :: Called ?x' ?y' ?z' :: ?l))
    with (Called x y z :: Called x' y' z' :: call_events l).
  by rewrite IH2.
Qed.

(** What a construction leaves behind, read off [combineReducers_exact]. *)
Lemma construction_run env reducers w0 c w1 :
  combineReducers env (AObject reducers) w0 = (Return c, w1) ->
  let finals := functions_of reducers (Object_keys reducers) [] in
  c = built env reducers (draws w0) (length (caches w0))
  /\ maps w1 = maps w0
  /\ draws w1 = (probe_run env finals (draws w0)).2
  /\ call_events (trace w1)
     = call_events (trace w0) ++ (probe_run env finals (draws w0)).1
  /\ Runs.console_lines (trace w1)
     = Runs.console_lines (trace w0)
       ++ Runs.console_lines (missing_events env reducers (Object_keys reducers)).
Proof.
  intros Hb finals. rewrite combineReducers_exact in Hb. fold finals in Hb.
  injection Hb as <- <-. cbn [maps draws trace].
  destruct (probe_run_events env finals (draws w0)) as [Hc Hp].
  rewrite !call_events_app, !console_lines_app, call_events_missing, Hc, Hp.
  by rewrite app_nil_r.
Qed.

(** ** Construction *)

(** X1.  The final reducer set is the function-valued properties of the
    mapping, in enumeration order, whatever the other values are; the
    registered names are their keys, without repetition; the construction
    leaves the store of maps alone. *)
Theorem X1_retained_reducers (env : environment)
    (reducers : list (string * candidate)) (w0 w1 : world) (c : closure) :
  combineReducers env (AObject reducers) w0 = (Return c, w1) ->
  NoDup (Object_keys reducers) ->
  finalReducers c = omap function_entry reducers
  /\ finalReducerNames c = Object_keys (omap function_entry reducers)
  /\ NoDup (finalReducerNames c)
  /\ maps w1 = maps w0.
Proof.
  intros Hb Hnd. destruct (construction_run _ _ _ _ _ Hb) as (-> & Hm & _).
  unfold built. cbn [finalReducers finalReducerNames].
  rewrite functions_of_NoDup by done. repeat split; [|done].
  rewrite <- functions_of_NoDup by done. apply NoDup_functions_of. constructor.
Qed.

(** X2.  The construction logs one "No reducer provided" line for every
    property whose value is [undefined], in enumeration order, when the
    mode is not production and a console exists, and nothing else:
    values that are neither functions nor [undefined] are dropped
    silently, and the probes log nothing. *)
Theorem X2_missing_reducer_lines (env : environment)
    (reducers : list (string * candidate)) (w0 w1 : world) (c : closure) :
  combineReducers env (AObject reducers) w0 = (Return c, w1) ->
  NoDup (Object_keys reducers) ->
  Runs.console_lines (trace w1)
  = Runs.console_lines (trace w0) ++ missing_reducer_lines env reducers.
Proof.
  intros Hb Hnd. destruct (construction_run _ _ _ _ _ Hb) as (_ & _ & _ & _ & ->).
  destruct (missing_events_suffix env reducers [] Hnd) as [H _].
  cbn [app] in H. by rewrite H.
Qed.

(** X3.  When every retained reducer gives a defined value for both
    probes, the construction captures no error, has called every retained
    reducer exactly twice, in order, with [undefined] and the two probe
    actions, and has drawn one random suffix for each. *)
Theorem X3_sane_construction (env : environment)
    (reducers : list (string * candidate)) (w0 w1 : world) (c : closure) :
  combineReducers env (AObject reducers) w0 = (Return c, w1) ->
  (forall i k f, finalReducers c !! i = Some (k, f) ->
                 passes_probes env f (draws w0 + i)) ->
  sanityError c = None
  /\ call_events (trace w1)
     = call_events (trace w0) ++ sanity_calls env (finalReducers c) (draws w0)
  /\ draws w1 = (draws w0 + length (finalReducers c))%nat.
Proof.
  intros Hb Hall.
  destruct (construction_run _ _ _ _ _ Hb) as (-> & _ & -> & -> & _).
  unfold built in *. cbn [finalReducers sanityError] in *.
  destruct (probe_run_pass env _ _ Hall) as [-> ->]. done.
Qed.

(** The construction stops at the first retained reducer that fails a
    probe. *)
Lemma construction_stops env reducers w0 c w1 pre k f post :
  combineReducers env (AObject reducers) w0 = (Return c, w1) ->
  finalReducers c = pre ++ (k, f) :: post ->
  (forall i k' f', pre !! i = Some (k', f') -> passes_probes env f' (draws w0 + i)) ->
  (is_undefined (f undefined init_action) = true ->
   sanityError c = Some (Error (init_error_message k))
   /\ call_events (trace w1)
      = call_events (trace w0) ++ sanity_calls env pre (draws w0)
        ++ [Called k undefined init_action]
   /\ draws w1 = (draws w0 + length pre)%nat)
  /\ (is_undefined (f undefined init_action) = false ->
      is_undefined (f undefined (probe_action env (draws w0 + length pre))) = true ->
      sanityError c = Some (Error (probe_error_message k))
      /\ call_events (trace w1)
         = call_events (trace w0) ++ sanity_calls env pre (draws w0)
           ++ [Called k undefined init_action;
               Called k undefined (probe_action env (draws w0 + length pre))]
      /\ draws w1 = S (draws w0 + length pre)).
Proof.
  intros Hb Hfin Hpre.
  destruct (construction_run _ _ _ _ _ Hb) as (-> & _ & -> & -> & _).
  unfold built in *. cbn [finalReducers sanityError] in *. rewrite Hfin.
  destruct (probe_run_stop env pre (draws w0) k f post Hpre) as (Hv & Hi & Hp).
  rewrite Hv. split.
  - intros Hu. rewrite (Hi Hu), Hu. done.
  - intros Hd Hu. rewrite (Hp Hd Hu), Hd, Hu. done.
Qed.

(** X4.  When the first retained reducer that fails a probe gives
    [undefined] for the initialization action, the captured error is the
    initialization error that names it; that reducer is called once, no
    random suffix is drawn for it, and the reducers registered after it
    are never called. *)
Theorem X4_first_failed_initialization (env : environment)
    (reducers : list (string * candidate)) (w0 w1 : world) (c : closure)
    (pre post : list (string * reducer)) (k : string) (f : reducer) :
  combineReducers env (AObject reducers) w0 = (Return c, w1) ->
  finalReducers c = pre ++ (k, f) :: post ->
  (forall i k' f', pre !! i = Some (k', f') -> passes_probes env f' (draws w0 + i)) ->
  is_undefined (f undefined init_action) = true ->
  sanityError c = Some (Error (init_error_message k))
  /\ call_events (trace w1)
     = call_events (trace w0) ++ sanity_calls env pre (draws w0)
       ++ [Called k undefined init_action]
  /\ draws w1 = (draws w0 + length pre)%nat.
Proof.
  intros Hb Hfin Hpre Hu.
  destruct (construction_stops env reducers w0 c w1 pre k f post Hb Hfin Hpre)
    as [Hinit _].
  by apply Hinit.
Qed.

(** X5.  When the first retained reducer that fails a probe passes the
    initialization probe and gives [undefined] for its random probe, the
    captured error is the random-probe error that names it; that reducer
    is called twice, and the reducers registered after it are never
    called. *)
Theorem X5_first_failed_random_probe (env : environment)
    (reducers : list (string * candidate)) (w0 w1 : world) (c : closure)
    (pre post : list (string * reducer)) (k : string) (f : reducer) :
  combineReducers env (AObject reducers) w0 = (Return c, w1) ->
  finalReducers c = pre ++ (k, f) :: post ->
  (forall i k' f', pre !! i = Some (k', f') -> passes_probes env f' (draws w0 + i)) ->
  is_undefined (f undefined init_action) = false ->
  is_undefined (f undefined (probe_action env (draws w0 + length pre))) = true ->
  sanityError c = Some (Error (probe_error_message k))
  /\ call_events (trace w1)
     = call_events (trace w0) ++ sanity_calls env pre (draws w0)
       ++ [Called k undefined init_action;
           Called k undefined (probe_action env (draws w0 + length pre))]
  /\ draws w1 = S (draws w0 + length pre).
Proof.
  intros Hb Hfin Hpre Hd Hu.
  destruct (construction_stops env reducers w0 c w1 pre k f post Hb Hfin Hpre)
    as [_ Hprobe].
  by apply Hprobe.
Qed.



(** ** Invocation *)

(** *** More on the slice pass *)

Section PassMore.

Variable finals : list (string * reducer).
Variable a : action.

Lemma pass_calls_success names : forall m b m' b',
  NoDup names ->
  (pass_result finals a names m b).2 = inr (m', b') ->
  (pass_result finals a names m b).1
  = map (fun k => Called k (default undefined (m !! k)) a) names.
Proof.
  induction names as [|k0 rest IH]; intros m b m' b' Hnd Hr; simpl in *; [done|].
  apply NoDup_cons in Hnd as [Hk0 Hnd].
  destruct (own_property finals k0) as [f0|]; [|discriminate].
  destruct (is_undefined _); [discriminate|]. simpl in *.
  rewrite (IH _ _ _ _ Hnd Hr). f_equal. apply map_ext_in.
  intros k Hk%list_elem_of_In. rewrite lookup_insert_ne; [done|].
  intros ->. contradiction.
Qed.

Lemma pass_dom names : forall m b m' b',
  (pass_result finals a names m b).2 = inr (m', b') ->
  dom m' = dom m ∪ list_to_set names.
Proof.
  induction names as [|k0 rest IH]; intros m b m' b' Hr; simpl in Hr.
  - injection Hr as <- <-. simpl. by rewrite union_empty_r_L.
  - destruct (own_property finals k0) as [f0|]; [|discriminate].
    destruct (is_undefined _); [discriminate|]. simpl in Hr.
    rewrite (IH _ _ _ _ Hr), dom_insert_L, list_to_set_cons.
    by rewrite (comm_L (∪) {[k0]} (dom m)), <- (assoc_L (∪)).
Qed.

Lemma pass_defined names : forall m b m' b' k,
  (pass_result finals a names m b).2 = inr (m', b') ->
  k ∈ names ->
  exists v, m' !! k = Some v /\ is_undefined v = false.
Proof.
  induction names as [|k0 rest IH]; intros m b m' b' k Hr Hk; simpl in Hr.
  - by apply elem_of_nil in Hk.
  - destruct (own_property finals k0) as [f0|]; [|discriminate].
    destruct (is_undefined _) eqn:Hd; [discriminate|]. simpl in Hr.
    destruct (decide (k ∈ rest)) as [Hin|Hout]; [by eapply IH|].
    apply elem_of_cons in Hk as [->|Hk]; [|contradiction].
    rewrite (pass_lookup_other _ _ _ _ _ _ _ _ Hr Hout), lookup_insert_eq. eauto.
Qed.

End PassMore.

Lemma call_events_calls (a : action) (g : string -> value) names :
  call_events (map (fun k => Called k (g k) a) names)
  = map (fun k => Called k (g k) a) names.
Proof.
  induction names as [|k rest IH]; [done|].
  change (Called k (g k) a :: call_events (map (fun k => Called k (g k) a) rest)
          = Called k (g k) a :: map (fun k => Called k (g k) a) rest).
  by rewrite IH.
Qed.

Lemma console_lines_calls (a : action) (g : string -> value) names :
  Runs.console_lines (map (fun k => Called k (g k) a) names) = [].
Proof. induction names as [|k rest IH]; [done|]. exact IH. Qed.

Lemma call_events_map_diagnostics env c : call_events (map_diagnostics env c) = [].
Proof.
  unfold map_diagnostics. destruct (_ && _); [|done]. apply call_events_console_line.
Qed.

(** X7.  Take a combined reducer in which no slice is named
    [hasOwnProperty], unless the mode is production (the shape check
    would call that reducer with the keys of the state).  An invocation
    on a persistent map that returns has called every registered reducer
    exactly once, in registration order, each with the value that the
    input map holds under its name ([undefined] when the key is absent)
    and with the action as it was given. *)
Theorem X7_one_call_per_reducer (env : environment)
    (reducers : list (string * candidate)) (w0 w1 : world) (c : closure)
    (l : loc) (o : map_object) (a : action) (w w' : world) (r : value) :
  combineReducers env (AObject reducers) w0 = (Return c, w1) ->
  (not_production env = true ->
   own_property (finalReducers c) "hasOwnProperty" = None) ->
  maps w !! l = Some o -> transient o = false ->
  combination env c (VMap l) a w = (Return r, w') ->
  call_events (trace w')
  = call_events (trace w)
    ++ map (fun k => Called k (default undefined (entries o !! k)) a)
           (finalReducerNames c).
Proof.
  intros Hb Hno Hl Ht Hrun.
  destruct (combination_returns _ _ _ _ _ _ _ Hrun) as (Hs & _).
  destruct (combination_persistent env reducers w0 c w1 l o a w Hb Hs Hno Hl Ht)
    as (cs & o' & Hrun' & _).
  rewrite Hrun' in Hrun. clear Hrun'.
  pose proof (built_closure _ _ _ _ _ Hb) as Hc.
  assert (Hnd : NoDup (finalReducerNames c)) by (rewrite Hc; apply built_NoDup).
  destruct (pass_result (finalReducers c) a (finalReducerNames c) (entries o) false)
    as [evs [e|[m' b']]] eqn:Hr; [discriminate|].
  assert (Hcalls :
    (pass_result (finalReducers c) a (finalReducerNames c) (entries o) false).1
    = map (fun k => Called k (default undefined (entries o !! k)) a)
          (finalReducerNames c)).
  { eapply pass_calls_success; [done|]. by rewrite Hr. }
  rewrite Hr in Hcalls. cbn [fst snd] in *. subst evs.
  injection Hrun as _ <-. cbn [trace].
  rewrite !call_events_app, call_events_map_diagnostics, app_nil_r.
  by rewrite call_events_calls.
Qed.

(** X8.  The keys of the map that an invocation returns are the keys of
    the input together with the registered names, and no registered name
    holds [undefined] in it. *)
Theorem X8_result_keys (env : environment)
    (reducers : list (string * candidate)) (w0 w1 : world) (c : closure)
    (l : loc) (o : map_object) (a : action) (w w' : world) (r : value) :
  combineReducers env (AObject reducers) w0 = (Return c, w1) ->
  maps w !! l = Some o -> transient o = false ->
  combination env c (VMap l) a w = (Return r, w') ->
  exists l' o',
    r = VMap l'
    /\ maps w' !! l' = Some o'
    /\ dom (entries o') = dom (entries o) ∪ list_to_set (finalReducerNames c)
    /\ forall k, k ∈ finalReducerNames c ->
         exists v, entries o' !! k = Some v /\ is_undefined v = false.
Proof.
  intros Hb Hl Ht Hrun.
  destruct (returned_persistent _ _ _ _ _ _ _ _ _ _ _ Hb Hl Ht Hrun)
    as (m' & b' & Hr & -> & Hmaps & Hnd).
  assert (Hres : exists l' o', (if b' then VMap (length (maps w)) else VMap l) = VMap l'
                   /\ maps w' !! l' = Some o' /\ entries o' = m').
  { destruct b'.
    - exists (length (maps w)), (MapObject m' false false).
      split; [done|]. split; [|done]. rewrite Hmaps. by apply list_lookup_middle.
    - exists l, o. split; [done|]. split.
      + rewrite Hmaps. by apply lookup_app_l_Some.
      + by destruct (pass_flag_false _ _ _ _ _ _ Hnd Hr) as (_ & -> & _). }
  destruct Hres as (l' & o' & Hl' & Ho' & <-).
  exists l', o'. repeat split; [done|done| |].
  - by eapply pass_dom.
  - intros k Hk. by eapply pass_defined.
Qed.

(** X12.  When no function is registered, an invocation on a persistent
    map returns the input map itself and calls nothing; outside
    production it hands the "no valid reducer" text to [warning] on every
    invocation. *)
Theorem X12_no_reducer_registered (env : environment)
    (reducers : list (string * candidate)) (w0 w1 : world) (c : closure)
    (l : loc) (o : map_object) (a : action) (w : world) :
  combineReducers env (AObject reducers) w0 = (Return c, w1) ->
  finalReducers c = [] ->
  maps w !! l = Some o -> transient o = false ->
  exists w',
    combination env c (VMap l) a w = (Return (VMap l), w')
    /\ trace w' = trace w ++ (if not_production env
                              then console_line env no_reducer_message else [])
    /\ maps w' !! l = Some o.
Proof.
  intros Hb Hnil Hl Ht.
  pose proof (built_closure _ _ _ _ _ Hb) as Hc.
  assert (Hs : sanityError c = None).
  { rewrite Hc in *. unfold built in *. cbn [finalReducers sanityError] in *.
    by rewrite Hnil. }
  assert (Hnames : finalReducerNames c = []).
  { rewrite Hc in *. unfold built in *. cbn [finalReducers finalReducerNames] in *.
    by rewrite Hnil. }
  assert (Hno : not_production env = true ->
                own_property (finalReducers c) "hasOwnProperty" = None).
  { intros _. by rewrite Hnil. }
  destruct (combination_persistent env reducers w0 c w1 l o a w Hb Hs Hno Hl Ht)
    as (cs & o' & Hrun & _).
  rewrite Hnames in Hrun. cbn in Hrun. rewrite app_nil_r in Hrun.
  eexists. split; [exact Hrun|]. cbn [trace maps]. split.
  - unfold map_diagnostics. rewrite Hnil. cbn. by rewrite andb_true_r.
  - by apply lookup_app_l_Some.
Qed.

(** X13.  Diagnostics are observational when no slice is named
    [hasOwnProperty]: two combined reducers built from the same mapping
    in any two environments (production or not, with or without a
    console), neither with a captured error, give the same outcome on
    the same persistent map and action, and when they return, the stores
    of maps they leave are equal. *)
Theorem X13_mode_independent_result (env1 env2 : environment)
    (reducers : list (string * candidate)) (u1 v1 u2 v2 : world) (c1 c2 : closure)
    (l : loc) (o : map_object) (a : action) (w1 w2 : world) :
  combineReducers env1 (AObject reducers) u1 = (Return c1, v1) ->
  combineReducers env2 (AObject reducers) u2 = (Return c2, v2) ->
  sanityError c1 = None -> sanityError c2 = None ->
  own_property (finalReducers c1) "hasOwnProperty" = None ->
  maps w1 = maps w2 ->
  maps w1 !! l = Some o -> transient o = false ->
  (combination env1 c1 (VMap l) a w1).1 = (combination env2 c2 (VMap l) a w2).1
  /\ forall r, (combination env1 c1 (VMap l) a w1).1 = Return r ->
       maps (combination env1 c1 (VMap l) a w1).2
       = maps (combination env2 c2 (VMap l) a w2).2.
Proof.
  intros Hb1 Hb2 Hs1 Hs2 Hno Hm Hl Ht.
  assert (Hl2 : maps w2 !! l = Some o) by (by rewrite <- Hm).
  assert (Hf : finalReducers c1 = finalReducers c2).
  { apply built_closure in Hb1, Hb2. by rewrite Hb1, Hb2. }
  assert (Hn : finalReducerNames c1 = finalReducerNames c2).
  { apply built_closure in Hb1, Hb2. by rewrite Hb1, Hb2. }
  assert (Hno2 : own_property (finalReducers c2) "hasOwnProperty" = None)
    by (by rewrite <- Hf).
  destruct (combination_persistent env1 reducers u1 c1 v1 l o a w1 Hb1 Hs1
              (fun _ => Hno) Hl Ht) as (cs1 & o1 & -> & Ho1).
  destruct (combination_persistent env2 reducers u2 c2 v2 l o a w2 Hb2 Hs2
              (fun _ => Hno2) Hl2 Ht) as (cs2 & o2 & -> & Ho2).
  rewrite Hf, Hn in *. rewrite Hm. cbn [fst snd maps]. split; [done|].
  intros r Hr.
  destruct (pass_result (finalReducers c2) a (finalReducerNames c2) (entries o) false).2
    as [e|[m' b']]; [discriminate|].
  by rewrite (Ho1 _ _ eq_refl), (Ho2 _ _ eq_refl).
Qed.

(** *** What an invocation can touch and throw *)

Lemma combination_production env c s a w :
  not_production env = false ->
  combination env c s a w
  = match sanityError c with
    | Some e => (Throw e, w)
    | None => slice_pass env c (if is_undefined s then VMap Immutable.EMPTY_MAP else s) a w
    end.
Proof.
  intros Hp. unfold combination. rewrite Hp.
  destruct (is_undefined s); destruct (sanityError c); reflexivity.
Qed.

(** X11.  In production an invocation logs nothing on the console, and
    touches neither the unexpected-key caches nor the random source,
    whatever the closure, the state and the action are. *)
Theorem X11_production_is_silent (env : environment) (c : closure)
    (s : value) (a : action) (w : world) :
  not_production env = false ->
  Runs.console_lines (trace (combination env c s a w).2) = Runs.console_lines (trace w)
  /\ caches (combination env c s a w).2 = caches w
  /\ draws (combination env c s a w).2 = draws w.
Proof.
  intros Hp. rewrite (combination_production env c s a w Hp).
  destruct (sanityError c) as [e|]; [done|].
  by destruct (slice_pass_frame env c (if is_undefined s then VMap Immutable.EMPTY_MAP else s)
                 a w) as (-> & -> & -> & _).
Qed.


(** *** The cache of unexpected keys *)

Section Marking.

Variable finals : list (string * reducer).
Variable cid : nat.
Hypothesis inherited : own_property finals "hasOwnProperty" = None.

Lemma marked_nil S : marked finals S [] = S.
Proof. unfold marked. rewrite filter_nil. simpl. by rewrite union_empty_r_L. Qed.

Lemma marked_skip S k keys :
  k ∈ Object_keys finals \/ k ∈ object_prototype_keys \/ k ∈ S ->
  marked finals S (k :: keys) = marked finals S keys.
Proof.
  intros Hk. unfold marked.
  destruct (decide ((k ∉ Object_keys finals) /\ (k ∉ object_prototype_keys))) as [Hp|Hp].
  - rewrite filter_cons_True by done. rewrite list_to_set_cons.
    destruct Hk as [?|[?|Hin]]; [by destruct Hp..|].
    rewrite (assoc_L (∪)). f_equal. rewrite (comm_L (∪)).
    apply subseteq_union_1_L. by apply singleton_subseteq_l.
  - by rewrite filter_cons_False.
Qed.

Lemma marked_take S k keys :
  k ∉ Object_keys finals -> k ∉ object_prototype_keys ->
  marked finals ({[k]} ∪ S) keys = marked finals S (k :: keys).
Proof.
  intros H1 H2. unfold marked. rewrite filter_cons_True by done.
  rewrite list_to_set_cons, (assoc_L (∪)). f_equal. apply (comm_L (∪)).
Qed.

Lemma marked_cons S k keys :
  marked finals (marked finals S [k]) keys = marked finals S (k :: keys).
Proof.
  destruct (decide ((k ∉ Object_keys finals) /\ (k ∉ object_prototype_keys)))
    as [[H1 H2]|Hp].
  - rewrite <- (marked_take S k [] H1 H2), marked_nil. by apply marked_take.
  - assert (Hk : k ∈ Object_keys finals \/ k ∈ object_prototype_keys \/ k ∈ S).
    { destruct (decide (k ∈ Object_keys finals)); [by left|].
      destruct (decide (k ∈ object_prototype_keys)); [by right; left|].
      by destruct Hp. }
    by rewrite !(marked_skip S k _ Hk), marked_nil.
Qed.

Lemma mark_step w S k :
  caches w !! cid = Some S ->
  (keep <- (own <- hasOwnProperty finals k ;;
            if ToBoolean own then ret false
            else cached <- cache_has (Some cid) k ;; ret (negb cached)) ;;
   if keep then cache_set (Some cid) k else ret tt) w
  = (Return tt,
     World (maps w) (<[cid := marked finals S [k]]> (caches w)) (draws w) (trace w)).
Proof.
  intros HS.
  assert (Hsame : forall S', S' = S ->
            (Return tt, w)
            = (Return tt, World (maps w) (<[cid := S']> (caches w)) (draws w) (trace w))).
  { intros S' ->. rewrite list_insert_id by done. by destruct w. }
  unfold bind at 1, bind at 1. rewrite hasOwnProperty_inherited by done.
  cbn [ToBoolean truthy].
  destruct (decide (k ∈ Object_keys finals)) as [Hown|Hown].
  { rewrite (bool_decide_eq_true_2 _ Hown). unfold ret.
    apply Hsame. rewrite marked_skip, marked_nil; [done|by left]. }
  rewrite (bool_decide_eq_false_2 _ Hown).
  unfold bind, cache_has, ret, cache_at. rewrite HS.
  cbn [default from_option id].
  destruct (decide (k ∈ S)) as [HinS|HinS].
  { rewrite (bool_decide_eq_true_2 _ HinS). cbn [orb negb].
    apply Hsame. rewrite marked_skip, marked_nil; [done|by right; right]. }
  rewrite (bool_decide_eq_false_2 _ HinS). cbn [orb].
  destruct (decide (k ∈ object_prototype_keys)) as [Hproto|Hproto].
  { rewrite (bool_decide_eq_true_2 _ Hproto). cbn [negb].
    apply Hsame. rewrite marked_skip, marked_nil; [done|by right; left]. }
  rewrite (bool_decide_eq_false_2 _ Hproto). cbn [negb].
  unfold cache_set, cache_at. rewrite HS. cbn [default from_option id].
  by rewrite <- (marked_take S k [] Hown Hproto), marked_nil.
Qed.

Lemma mark_loop_exact keys : forall w S,
  caches w !! cid = Some S ->
  forEach keys
    (fun k =>
       keep <- (own <- hasOwnProperty finals k ;;
                if ToBoolean own then ret false
                else cached <- cache_has (Some cid) k ;; ret (negb cached)) ;;
       if keep then cache_set (Some cid) k else ret tt) w
  = (Return tt,
     World (maps w) (<[cid := marked finals S keys]> (caches w)) (draws w) (trace w)).
Proof.
  induction keys as [|k rest IH]; intros w S HS.
  - cbn. unfold ret. rewrite marked_nil, list_insert_id by done. by destruct w.
  - cbn [forEach]. unfold bind at 1. rewrite (mark_step w S k HS).
    rewrite (IH _ (marked finals S [k])).
    + cbn [maps caches draws trace].
      by rewrite list_insert_insert_eq, marked_cons.
    + cbn [caches]. apply list_lookup_insert_eq. by eapply lookup_lt_Some.
Qed.

Lemma shape_on_map_exact l a w S :
  finals <> [] -> caches w !! cid = Some S ->
  getUnexpectedStateShapeWarningMessage (VMap l) finals a (Some cid) w
  = (Return None,
     World (maps w)
           (<[cid := marked finals S (Immutable.keys_of (Immutable.object_at w l))]>
              (caches w))
           (draws w) (trace w)).
Proof.
  intros Hne HS. rewrite shape_of_map by done.
  by rewrite (mark_loop_exact _ w S HS).
Qed.

End Marking.

Lemma combination_marks env c cid l a w S :
  sanityError c = None -> not_production env = true ->
  unexpectedKeyCache c = Some cid -> finalReducers c <> [] ->
  own_property (finalReducers c) "hasOwnProperty" = None ->
  caches w !! cid = Some S ->
  combination env c (VMap l) a w
  = slice_pass env c (VMap l) a
      (World (maps w)
         (<[cid := marked (finalReducers c) S
                     (Immutable.keys_of (Immutable.object_at w l))]> (caches w))
         (draws w) (trace w)).
Proof.
  intros Hs Hp Hcid Hne Hno HS.
  unfold combination. cbn [is_undefined]. unfold bind at 1, ret at 1.
  rewrite Hs, Hp, Hcid. unfold bind at 1, bind at 1.
  by rewrite (shape_on_map_exact _ _ Hno _ _ _ _ Hne HS).
Qed.

(** X10.  Outside production, an invocation on a map of a combined
    reducer with at least one registered reducer, none of them named
    [hasOwnProperty], and no captured error leaves in its cache what was
    there before together with the keys of the state that are neither
    registered names nor names of [Object.prototype], whether the
    invocation returns or throws; the caches of the other combined
    reducers are untouched. *)
Theorem X10_unexpected_keys_are_cached (env : environment)
    (reducers : list (string * candidate)) (w0 w1 : world) (c : closure)
    (cid : nat) (cached : gset string)
    (l : loc) (o : map_object) (a : action) (w : world) :
  combineReducers env (AObject reducers) w0 = (Return c, w1) ->
  sanityError c = None ->
  finalReducers c <> [] ->
  own_property (finalReducers c) "hasOwnProperty" = None ->
  unexpectedKeyCache c = Some cid ->
  caches w !! cid = Some cached ->
  maps w !! l = Some o ->
  (forall k, k ∈ cache_at (combination env c (VMap l) a w).2 cid
             <-> k ∈ cached
                 \/ (k ∈ dom (entries o) /\ (k ∉ finalReducerNames c)
                     /\ (k ∉ object_prototype_keys)))
  /\ (forall j, j <> cid ->
        caches (combination env c (VMap l) a w).2 !! j = caches w !! j).
Proof.
  intros Hb Hs Hne Hno Hcid HS Hl.
  pose proof (built_closure _ _ _ _ _ Hb) as Hc.
  assert (Hp : not_production env = true).
  { rewrite Hc in Hcid. unfold built in Hcid. cbn in Hcid.
    by destruct (not_production env). }
  assert (Hnames : finalReducerNames c = Object_keys (finalReducers c))
    by (by rewrite Hc).
  rewrite (combination_marks env c cid l a w cached Hs Hp Hcid Hne Hno HS).
  set (w2 := World _ _ _ _). unfold cache_at.
  destruct (slice_pass_frame env c (VMap l) a w2) as (-> & _).
  subst w2. cbn [caches]. unfold Immutable.object_at. rewrite Hl.
  cbn [default from_option id]. split.
  - intros k. rewrite list_lookup_insert_eq by (by eapply lookup_lt_Some).
    cbn [default from_option id]. unfold marked, Immutable.keys_of.
    rewrite elem_of_union, elem_of_list_to_set, list_elem_of_filter, Hnames.
    assert (Hdom : k ∈ map fst (map_to_list (entries o)) <-> k ∈ dom (entries o)).
    { rewrite elem_of_dom. change (map fst ?x) with (fst <$> x).
      rewrite list_elem_of_fmap. split.
      - intros ([k' v] & -> & Hin). apply elem_of_map_to_list in Hin. eauto.
      - intros [v Hv]. exists (k, v). split; [done|]. by apply elem_of_map_to_list. }
    rewrite Hdom. tauto.
  - intros j Hj. by apply list_lookup_insert_ne.
Qed.

(** *** A slice named [hasOwnProperty] *)


(** ** Instances of the further properties *)

Lemma X1_retained_reducers_witness :
  let c := (Runs.construct Scenario.initial_world More.mixed).1 in
  let w1 := (Runs.construct Scenario.initial_world More.mixed).2 in
  finalReducers c = [("counter", Scenario.counter); ("name", Scenario.name)]
  /\ finalReducerNames c = ["counter"; "name"]
  /\ NoDup (finalReducerNames c)
  /\ maps w1 = maps Scenario.initial_world.
Proof.
  unshelve epose proof
    (X1_retained_reducers Scenario.development More.mixed Scenario.initial_world
       (Runs.construct Scenario.initial_world More.mixed).2
       (Runs.construct Scenario.initial_world More.mixed).1 _ _) as H;
    [vm_compute; reflexivity | apply (bool_decide_unpack _); vm_compute; exact I |].
  by_evaluation H.
Defined.

Lemma X2_missing_reducer_lines_witness :
  Runs.console_lines (trace (Runs.construct Scenario.initial_world More.mixed).2)
  = [ "No reducer provided for key " +:+ dq +:+ "gone" +:+ dq ].
Proof.
  unshelve epose proof
    (X2_missing_reducer_lines Scenario.development More.mixed Scenario.initial_world
       (Runs.construct Scenario.initial_world More.mixed).2
       (Runs.construct Scenario.initial_world More.mixed).1 _ _) as H;
    [vm_compute; reflexivity | apply (bool_decide_unpack _); vm_compute; exact I |].
  by_evaluation H.
Defined.

Lemma X3_sane_construction_witness :
  let c := (Runs.construct Scenario.initial_world Scenario.reducers).1 in
  let w1 := (Runs.construct Scenario.initial_world Scenario.reducers).2 in
  sanityError c = None
  /\ call_events (trace w1)
     = [ Called "counter" undefined init_action;
         Called "counter" undefined (probe_action Scenario.development 0);
         Called "name" undefined init_action;
         Called "name" undefined (probe_action Scenario.development 1) ]
  /\ draws w1 = 2%nat.
Proof.
  assert (Hall : forall i k f,
            finalReducers (Runs.construct Scenario.initial_world Scenario.reducers).1 !! i
            = Some (k, f) ->
            passes_probes Scenario.development f (draws Scenario.initial_world + i)).
  { intros [|[|i]] k f Hi; vm_compute in Hi; try discriminate;
      injection Hi as <- <-; split; reflexivity. }
  unshelve epose proof
    (X3_sane_construction Scenario.development Scenario.reducers Scenario.initial_world
       (Runs.construct Scenario.initial_world Scenario.reducers).2
       (Runs.construct Scenario.initial_world Scenario.reducers).1 _ Hall) as H;
    [vm_compute; reflexivity |].
  by_evaluation H.
Defined.

Lemma name_passes_first :
  forall i k' f', [("name", Scenario.name)] !! i = Some (k', f') ->
    passes_probes Scenario.development f' (draws Scenario.initial_world + i).
Proof.
  intros [|i] k f Hi; [|done]. injection Hi as <- <-. split; reflexivity.
Qed.

Lemma X4_first_failed_initialization_witness :
  let c := (Runs.construct Scenario.initial_world More.failing_first).1 in
  let w1 := (Runs.construct Scenario.initial_world More.failing_first).2 in
  sanityError c = Some (Error (init_error_message "bad"))
  /\ call_events (trace w1)
     = [ Called "name" undefined init_action;
         Called "name" undefined (probe_action Scenario.development 0);
         Called "bad" undefined init_action ]
  /\ draws w1 = 1%nat.
Proof.
  unshelve epose proof
    (X4_first_failed_initialization Scenario.development More.failing_first
       Scenario.initial_world
       (Runs.construct Scenario.initial_world More.failing_first).2
       (Runs.construct Scenario.initial_world More.failing_first).1
       [("name", Scenario.name)] [("counter", Scenario.counter)] "bad" Runs.bad
       _ _ name_passes_first _) as H;
    [vm_compute; reflexivity ..|].
  by_evaluation H.
Defined.

Lemma X5_first_failed_random_probe_witness :
  let c := (Runs.construct Scenario.initial_world More.failing_probe).1 in
  let w1 := (Runs.construct Scenario.initial_world More.failing_probe).2 in
  sanityError c = Some (Error (probe_error_message "init"))
  /\ call_events (trace w1)
     = [ Called "name" undefined init_action;
         Called "name" undefined (probe_action Scenario.development 0);
         Called "init" undefined init_action;
         Called "init" undefined (probe_action Scenario.development 1) ]
  /\ draws w1 = 2%nat.
Proof.
  unshelve epose proof
    (X5_first_failed_random_probe Scenario.development More.failing_probe
       Scenario.initial_world
       (Runs.construct Scenario.initial_world More.failing_probe).2
       (Runs.construct Scenario.initial_world More.failing_probe).1
       [("name", Scenario.name)] [("counter", Scenario.counter)] "init" More.init_only
       _ _ name_passes_first _ _) as H;
    [vm_compute; reflexivity ..|].
  by_evaluation H.
Defined.


Lemma X7_one_call_per_reducer_witness :
  let c := (Runs.construct (Runs.world_with More.with_extra) Scenario.reducers).1 in
  let w := (Runs.construct (Runs.world_with More.with_extra) Scenario.reducers).2 in
  call_events (trace (combination Scenario.development c (VMap 1%nat) Scenario.INC w).2)
  = call_events (trace w)
    ++ [ Called "counter" (VPrim (PNum 1)) Scenario.INC;
         Called "name" undefined Scenario.INC ].
Proof.
  unshelve epose proof
    (X7_one_call_per_reducer Scenario.development Scenario.reducers
       (Runs.world_with More.with_extra)
       (Runs.construct (Runs.world_with More.with_extra) Scenario.reducers).2
       (Runs.construct (Runs.world_with More.with_extra) Scenario.reducers).1
       1%nat (MapObject More.with_extra false false) Scenario.INC
       (Runs.construct (Runs.world_with More.with_extra) Scenario.reducers).2
       (combination Scenario.development
          (Runs.construct (Runs.world_with More.with_extra) Scenario.reducers).1
          (VMap 1%nat) Scenario.INC
          (Runs.construct (Runs.world_with More.with_extra) Scenario.reducers).2).2
       (VMap 2%nat) _ _ _ _ _) as H;
    [vm_compute; reflexivity ..|].
  by_evaluation H.
Defined.

Lemma X8_result_keys_witness :
  let c := (Runs.construct (Runs.world_with More.with_extra) Scenario.reducers).1 in
  let w := (Runs.construct (Runs.world_with More.with_extra) Scenario.reducers).2 in
  let w' := (combination Scenario.development c (VMap 1%nat) Scenario.INC w).2 in
  exists l' o',
    VMap 2%nat = VMap l'
    /\ maps w' !! l' = Some o'
    /\ dom (entries o') = dom More.with_extra ∪ list_to_set (finalReducerNames c)
    /\ forall k, k ∈ finalReducerNames c ->
         exists v, entries o' !! k = Some v /\ is_undefined v = false.
Proof.
  unshelve epose proof
    (X8_result_keys Scenario.development Scenario.reducers
       (Runs.world_with More.with_extra)
       (Runs.construct (Runs.world_with More.with_extra) Scenario.reducers).2
       (Runs.construct (Runs.world_with More.with_extra) Scenario.reducers).1
       1%nat (MapObject More.with_extra false false) Scenario.INC
       (Runs.construct (Runs.world_with More.with_extra) Scenario.reducers).2
       (combination Scenario.development
          (Runs.construct (Runs.world_with More.with_extra) Scenario.reducers).1
          (VMap 1%nat) Scenario.INC
          (Runs.construct (Runs.world_with More.with_extra) Scenario.reducers).2).2
       (VMap 2%nat) _ _ _ _) as H;
    [vm_compute; reflexivity ..|].
  by_evaluation H.
Defined.


Lemma X10_unexpected_keys_are_cached_witness :
  let c := (Runs.construct (Runs.world_with More.with_bogus) [("a", Fn Runs.keep)]).1 in
  let w := (Runs.construct (Runs.world_with More.with_bogus) [("a", Fn Runs.keep)]).2 in
  let w' := (combination Scenario.development c (VMap 1%nat) Runs.OTHER w).2 in
  (forall k, k ∈ cache_at w' 0
             <-> k ∈ (∅ : gset string)
                 \/ (k ∈ dom More.with_bogus /\ (k ∉ finalReducerNames c)
                     /\ (k ∉ object_prototype_keys)))
  /\ (forall j, j <> 0%nat -> caches w' !! j = caches w !! j).
Proof.
  unshelve epose proof
    (X10_unexpected_keys_are_cached Scenario.development [("a", Fn Runs.keep)]
       (Runs.world_with More.with_bogus)
       (Runs.construct (Runs.world_with More.with_bogus) [("a", Fn Runs.keep)]).2
       (Runs.construct (Runs.world_with More.with_bogus) [("a", Fn Runs.keep)]).1
       0%nat ∅ 1%nat (MapObject More.with_bogus false false) Runs.OTHER
       (Runs.construct (Runs.world_with More.with_bogus) [("a", Fn Runs.keep)]).2
       _ _ _ _ _ _ _) as H;
    [vm_compute; reflexivity | vm_compute; reflexivity | vm_compute; discriminate
    | vm_compute; reflexivity | vm_compute; reflexivity | vm_compute; reflexivity
    | vm_compute; reflexivity |].
  by_evaluation H.
Defined.

Lemma X11_production_is_silent_witness :
  let c := (More.construct_in More.production (Runs.world_with More.with_bogus)
              [("a", Fn Runs.keep)]).1 in
  let w := (More.construct_in More.production (Runs.world_with More.with_bogus)
              [("a", Fn Runs.keep)]).2 in
  Runs.console_lines (trace (combination More.production c (VMap 1%nat) Runs.OTHER w).2)
  = Runs.console_lines (trace w)
  /\ caches (combination More.production c (VMap 1%nat) Runs.OTHER w).2 = caches w
  /\ draws (combination More.production c (VMap 1%nat) Runs.OTHER w).2 = draws w.
Proof.
  apply (X11_production_is_silent More.production). reflexivity.
Defined.

Lemma X12_no_reducer_registered_witness :
  let c := (Runs.construct (Runs.world_with More.with_bogus)
              [("junk", NotFn (VPrim (PNum 3)))]).1 in
  let w := (Runs.construct (Runs.world_with More.with_bogus)
              [("junk", NotFn (VPrim (PNum 3)))]).2 in
  exists w',
    combination Scenario.development c (VMap 1%nat) Runs.OTHER w = (Return (VMap 1%nat), w')
    /\ trace w' = trace w ++ [ConsoleError no_reducer_message]
    /\ maps w' !! 1%nat = Some (MapObject More.with_bogus false false).
Proof.
  unshelve epose proof
    (X12_no_reducer_registered Scenario.development [("junk", NotFn (VPrim (PNum 3)))]
       (Runs.world_with More.with_bogus)
       (Runs.construct (Runs.world_with More.with_bogus)
          [("junk", NotFn (VPrim (PNum 3)))]).2
       (Runs.construct (Runs.world_with More.with_bogus)
          [("junk", NotFn (VPrim (PNum 3)))]).1
       1%nat (MapObject More.with_bogus false false) Runs.OTHER
       (Runs.construct (Runs.world_with More.with_bogus)
          [("junk", NotFn (VPrim (PNum 3)))]).2
       _ _ _ _) as H;
    [vm_compute; reflexivity ..|].
  by_evaluation H.
Defined.

Lemma X13_mode_independent_result_witness :
  let w0 := Runs.world_with More.with_extra in
  let c1 := (More.construct_in Scenario.development w0 Scenario.reducers).1 in
  let w1 := (More.construct_in Scenario.development w0 Scenario.reducers).2 in
  let c2 := (More.construct_in More.production w0 Scenario.reducers).1 in
  let w2 := (More.construct_in More.production w0 Scenario.reducers).2 in
  (combination Scenario.development c1 (VMap 1%nat) Scenario.INC w1).1
  = (combination More.production c2 (VMap 1%nat) Scenario.INC w2).1
  /\ forall r,
       (combination Scenario.development c1 (VMap 1%nat) Scenario.INC w1).1 = Return r ->
       maps (combination Scenario.development c1 (VMap 1%nat) Scenario.INC w1).2
       = maps (combination More.production c2 (VMap 1%nat) Scenario.INC w2).2.
Proof.
  unshelve epose proof
    (X13_mode_independent_result Scenario.development More.production Scenario.reducers
       (Runs.world_with More.with_extra)
       (More.construct_in Scenario.development (Runs.world_with More.with_extra)
          Scenario.reducers).2
       (Runs.world_with More.with_extra)
       (More.construct_in More.production (Runs.world_with More.with_extra)
          Scenario.reducers).2
       (More.construct_in Scenario.development (Runs.world_with More.with_extra)
          Scenario.reducers).1
       (More.construct_in More.production (Runs.world_with More.with_extra)
          Scenario.reducers).1
       1%nat (MapObject More.with_extra false false) Scenario.INC
       (More.construct_in Scenario.development (Runs.world_with More.with_extra)
          Scenario.reducers).2
       (More.construct_in More.production (Runs.world_with More.with_extra)
          Scenario.reducers).2
       _ _ _ _ _ _ _ _) as H;
    [vm_compute; reflexivity ..|].
  by_evaluation H.
Defined.

